(** * AutoTST: systematic conformer search

    A shallow embedding of [autotst/conformer/systematic.py]:
    [find_all_combos] (the combination enumerator) and [systematic_search]
    (candidate builder, relaxation fan-out, energy-window filter, greedy
    near-duplicate removal and result assembly).

    Conventions of the embedding.
    - Angles are whole degrees ([Z]); on whole degrees the double arithmetic
      of [np.arange(0, 360, delta)] is exact.
    - Energies and interatomic distances are rationals ([Q]).
    - Python exceptions are [None] in an error monad; Python objects that are
      mutated through references live in an explicit [Store].
    - Code of the toolkit that is called but not part of this file of the
      repository (ASE, the [Conformer] class, [find_terminal_torsions],
      [get_energy]) is the [Backend] interface. *)

From Stdlib Require Import String.
From Stdlib Require Import List ZArith QArith Qround Lia Bool Arith.
From Stdlib Require Import Sorting.Sorted Sorting.Permutation.
From Stdlib Require Import Psatz.
Import ListNotations.

Set Implicit Arguments.
Set Maximal Implicit Insertion.

(** ** itertools and numpy helpers *)

(** [itertools.combinations_with_replacement(pool, r)]: the [r]-tuples of
    pool elements whose pool positions are non-decreasing, in lexicographic
    order of positions. *)
Fixpoint combinations_with_replacement (A : Type) (pool : list A) (r : nat)
  : list (list A) :=
  match r with
  | O => [[]]
  | S r' =>
      (fix from (p : list A) : list (list A) :=
         match p with
         | [] => []
         | x :: rest =>
             map (cons x) (combinations_with_replacement p r') ++ from rest
         end) pool
  end.

(** The positions loop of [combinations_with_replacement] as a function of
    its own: first element taken from each suffix of the pool in turn. *)
Fixpoint cwr_from (A : Type) (r' : nat) (p : list A) : list (list A) :=
  match p with
  | [] => []
  | x :: rest =>
      map (cons x) (combinations_with_replacement p r') ++ cwr_from r' rest
  end.

(** [list(set(l))]: one copy of every element.  Python leaves the order of
    a set unspecified; the embedding fixes one, and the theorems speak of
    membership and length only. *)
Definition list_set (A : Type) (eq_dec : forall x y : A, {x = y} + {x <> y})
  (l : list A) : list A := nodup eq_dec l.

(** [itertools.product(a, b, c)] as a list of triples. *)
Definition product3 (A B C : Type) (a : list A) (b : list B) (c : list C)
  : list (A * B * C) :=
  flat_map (fun x => flat_map (fun y => map (fun z => (x, y, z)) c) b) a.

(** Ceiling of [a / b] on integers ([Z.div] is the floor division). *)
Definition ceil_div (a b : Z) : Z := - ((- a) / b).

(** [np.arange(start, stop, step)]: [ceil((stop - start) / step)] values
    [start + i * step]; a zero step raises. *)
Definition np_arange (start stop step : Z) : option (list Z) :=
  if (step =? 0)%Z then None
  else Some (map (fun i => (start + Z.of_nat i * step)%Z)
               (seq 0 (Z.to_nat (ceil_div (stop - start) step)))).

(** The pattern [find_all_combos] uses three times: the combinations with
    replacement of [options], joined as a set with those drawn from
    [options[::-1]] unless there is exactly one descriptor. *)
Definition combos_both_ways (A : Type)
  (eq_dec : forall x y : A, {x = y} + {x <> y})
  (options : list A) (n : nat) : list (list A) :=
  let combos := combinations_with_replacement options n in
  if (n =? 1)%nat then combos
  else list_set (list_eq_dec eq_dec)
         (combos ++ combinations_with_replacement (rev options) n).

Definition cistrans_options : list string := ["E"%string; "Z"%string].
Definition chiral_options : list string := ["R"%string; "S"%string].

(** A combination: torsion angles, cis/trans labels, chirality labels. *)
Definition Combo : Type := (list Z * list string * list string)%type.

Definition torsion_combos (torsion_angles : list Z) (n : nat) : list (list Z) :=
  combos_both_ways Z.eq_dec torsion_angles n.

Definition cistrans_combos (cistrans : bool) (n : nat) : list (list string) :=
  if cistrans then combos_both_ways string_dec cistrans_options n
  else [[]].

(** In the source the parameter [chiral_centers] is rebound to
    [conformer.chiral_centers] before it is tested, so the test is on the
    descriptor list: non-empty enumerates, empty gives the empty tuple. *)
Definition chiral_combos (n : nat) : list (list string) :=
  if negb (n =? 0)%nat then combos_both_ways string_dec chiral_options n
  else [[]].

(** ** Data model *)

Section Search.

(** Atom positions ([ase] arrays) and the energy model are opaque. *)
Variables Positions Calculator : Type.

Record Torsion := {
  atom_indices : nat * nat * nat * nat;
  mask : list bool
}.

Record CisTrans := { ct_index : nat }.

Record ChiralCenter := { atom_index : nat }.

(** [ase.Atoms]: positions, constraints (pairs of atoms whose bond length is
    fixed) and the attached calculator. *)
Record Atoms := {
  arrays : Positions;
  constraint : list (nat * nat);
  calculator : option Calculator
}.

(** [Conformer] (and its subclass [TS], which carries the sorting labels of
    the atoms labelled *1, *2 and *3). *)
Record Conformer := {
  smiles : string;
  energy : option Q;
  index : nat;
  ase_molecule : Atoms;
  coords : Positions;
  torsions : list Torsion;
  cistrans : list CisTrans;
  chiral_centers : list ChiralCenter;
  ts_labels : option (nat * nat * nat)
}.

(** The toolkit the search calls into. *)
Record Backend := {
  (** [autotst.conformer.utilities.find_terminal_torsions]:
      (terminal torsions, the other torsions). *)
  find_terminal_torsions : Conformer -> list Torsion * list Torsion;
  (** [ase.Atoms.set_dihedral(a1, a2, a3, a4, angle, mask)] on positions. *)
  set_dihedral : nat * nat * nat * nat -> Z -> list bool -> Positions -> Positions;
  (** [Conformer.set_cistrans(index, label)] on the geometry. *)
  set_cistrans : nat -> string -> Positions -> Positions;
  (** [Conformer.set_chirality(atom_index, label)] on the geometry. *)
  set_chirality : nat -> string -> Positions -> Positions;
  (** [BFGS(atoms, logfile=None).run()]: the relaxed positions. *)
  bfgs_run : Calculator -> list (nat * nat) -> Positions -> Positions;
  (** [get_energy(conformer)]: potential energy under the calculator. *)
  get_energy : Calculator -> Positions -> Q;
  (** [ase.Atoms.get_all_distances()]. *)
  get_all_distances : Positions -> list (list Q);
  (** [units.kcal / units.mol / units.eV]. *)
  kcal_mol_eV : Q;
  (** Whether [np.array] accepts nested sequences of different lengths and
      builds an array of objects from them (numpy before 1.24), or raises
      (numpy 1.24 and later). *)
  ragged_arrays : bool
}.

Variable B : Backend.

(** ** The combination enumerator *)

Definition find_all_combos (conformer : Conformer) (delta : Z)
  (cistrans_flag chiral_centers_flag : bool) : option (list Combo) :=
  let '(terminal_torsions, torsions) := find_terminal_torsions B conformer in
  let cistranss := cistrans conformer in
  let chiral_centers := chiral_centers conformer in
  match np_arange 0 360 delta with
  | None => None
  | Some torsion_angles =>
      Some (product3
              (torsion_combos torsion_angles (length torsions))
              (cistrans_combos cistrans_flag (length cistranss))
              (chiral_combos (length chiral_centers)))
  end.

(** [np.any(combos)].  numpy first builds an array from the nested tuples,
    and what it builds depends on the lengths of the components.
    - No combination, or every component of every combination empty: an
      array without elements, on which [np.any] is [False].
    - Every component of one and the same positive length: a regular array,
      of strings since the labels are strings; [np.any] has no truth value
      for strings and raises.
    - Components of different lengths: a ragged nesting, from which numpy
      builds an array of tuple objects where it still accepts ragged input
      ([ragged_arrays]); one of them is non-empty, so [np.any] is true.
      Where numpy refuses ragged input the call raises. *)
Definition component_lengths (combo : Combo) : list nat :=
  let '(t, s, x) := combo in [length t; length s; length x].

Definition np_any (combos : list Combo) : option bool :=
  match concat (map component_lengths combos) with
  | [] => Some false
  | n :: rest =>
      if forallb (Nat.eqb n) rest
      then if (n =? 0)%nat then Some false else None
      else if ragged_arrays B then Some true else None
  end.

(** ** The store of [Conformer] objects

    A reference is an index into the store; [copy] allocates a new cell. *)
Definition loc := nat.
Definition Store := list Conformer.

Definition M (A : Type) : Type := Store -> option (A * Store).

Definition ret (A : Type) (a : A) : M A := fun st => Some (a, st).

Definition bind (A C : Type) (m : M A) (k : A -> M C) : M C :=
  fun st => match m st with
            | None => None
            | Some (a, st') => k a st'
            end.

Definition lift (A : Type) (o : option A) : M A :=
  fun st => match o with None => None | Some a => Some (a, st) end.

Notation "x <- m ;; k" := (bind m (fun x => k))
  (at level 61, m at next level, right associativity).
Notation "m ;;; k" := (bind m (fun _ => k))
  (at level 61, right associativity).

Definition read (l : loc) : M Conformer := fun st => lift (nth_error st l) st.

Fixpoint update (st : Store) (l : loc) (c : Conformer) : Store :=
  match st, l with
  | [], _ => []
  | _ :: rest, O => c :: rest
  | x :: rest, S l' => x :: update rest l' c
  end.

Definition modify (l : loc) (f : Conformer -> Conformer) : M unit :=
  c <- read l ;; fun st => Some (tt, update st l (f c)).

(** Modelled from the spec: [Conformer.copy], which is not in this file of
    the repository; a deep copy, every field of the new object equal to the
    old one and nothing shared with it. *)
Definition copy (l : loc) : M loc :=
  c <- read l ;; fun st => Some (List.length st, st ++ [c]).

(** ** Geometry changes on one [Conformer] *)

Definition with_positions (p : Positions) (c : Conformer) : Conformer :=
  {| smiles := smiles c; energy := energy c; index := index c;
     ase_molecule := {| arrays := p;
                        constraint := constraint (ase_molecule c);
                        calculator := calculator (ase_molecule c) |};
     coords := coords c; torsions := torsions c; cistrans := cistrans c;
     chiral_centers := chiral_centers c; ts_labels := ts_labels c |}.

(** Modelled from the spec: [Conformer.update_coords] and
    [Conformer.update_coords_from("ase")], which are not in this file of the
    repository; they refresh the derived coordinates from the ASE
    positions. *)
Definition update_coords_from_ase (c : Conformer) : Conformer :=
  {| smiles := smiles c; energy := energy c; index := index c;
     ase_molecule := ase_molecule c;
     coords := arrays (ase_molecule c); torsions := torsions c;
     cistrans := cistrans c; chiral_centers := chiral_centers c;
     ts_labels := ts_labels c |}.

Definition update_coords : Conformer -> Conformer := update_coords_from_ase.

Definition set_energy (e : option Q) (c : Conformer) : Conformer :=
  {| smiles := smiles c; energy := e; index := index c;
     ase_molecule := ase_molecule c; coords := coords c;
     torsions := torsions c; cistrans := cistrans c;
     chiral_centers := chiral_centers c; ts_labels := ts_labels c |}.

Definition set_index (i : nat) (c : Conformer) : Conformer :=
  {| smiles := smiles c; energy := energy c; index := i;
     ase_molecule := ase_molecule c; coords := coords c;
     torsions := torsions c; cistrans := cistrans c;
     chiral_centers := chiral_centers c; ts_labels := ts_labels c |}.

(** [ase_molecule.set_positions]. *)
Definition set_positions (p : Positions) (c : Conformer) : Conformer :=
  with_positions p c.

(** One pass of the loop over [enumerate(torsions)] of a combination:
    [conformer.torsions[i]] raises when [i] is out of range. *)
Fixpoint apply_torsions (i : nat) (angles : list Z) (c : Conformer)
  : option Conformer :=
  match angles with
  | [] => Some c
  | torsion :: rest =>
      match nth_error (torsions c) i with
      | None => None
      | Some tor =>
          let p := set_dihedral B (atom_indices tor) torsion (mask tor)
                     (arrays (ase_molecule c)) in
          apply_torsions (S i) rest (update_coords (with_positions p c))
      end
  end.

Fixpoint apply_cistrans (i : nat) (labels : list string) (c : Conformer)
  : option Conformer :=
  match labels with
  | [] => Some c
  | e_z :: rest =>
      match nth_error (cistrans c) i with
      | None => None
      | Some ct =>
          let p := set_cistrans B (ct_index ct) e_z (arrays (ase_molecule c)) in
          apply_cistrans (S i) rest (with_positions p c)
      end
  end.

Fixpoint apply_chirality (i : nat) (labels : list string) (c : Conformer)
  : option Conformer :=
  match labels with
  | [] => Some c
  | s_r :: rest =>
      match nth_error (chiral_centers c) i with
      | None => None
      | Some center =>
          let p := set_chirality B (atom_index center) s_r
                     (arrays (ase_molecule c)) in
          apply_chirality (S i) rest (with_positions p c)
      end
  end.

(** The body of the loop over [enumerate(combos)] up to the copy. *)
Definition apply_combo (combo : Combo) (c : Conformer) : option Conformer :=
  let '(angles, e_zs, s_rs) := combo in
  match apply_torsions 0 angles c with
  | None => None
  | Some c1 =>
      match apply_cistrans 0 e_zs c1 with
      | None => None
      | Some c2 =>
          match apply_chirality 0 s_rs c2 with
          | None => None
          | Some c3 => Some (update_coords_from_ase c3)
          end
      end
  end.

(** The candidate builder: the combination is applied to the object
    [conformer] itself, and [conformers[index]] is a copy taken afterwards. *)
Fixpoint build_candidates (conformer : loc) (index : nat) (combos : list Combo)
  : M (list (nat * loc)) :=
  match combos with
  | [] => ret []
  | combo :: rest =>
      c <- read conformer ;;
      c' <- lift (apply_combo combo c) ;;
      modify conformer (fun _ => c') ;;;
      l <- copy conformer ;;
      conformers <- build_candidates conformer (S index) rest ;;
      ret ((index, l) :: conformers)
  end.



(** The values the object [conformer] takes, one after each combination. *)
Fixpoint successive (combos : list Combo) (c : Conformer)
  : option (list Conformer) :=
  match combos with
  | [] => Some []
  | combo :: rest =>
      match apply_combo combo c with
      | None => None
      | Some c' =>
          match successive rest c' with
          | None => None
          | Some cs => Some (c' :: cs)
          end
      end
  end.

(** ** The relaxer *)

(** What one relaxation unit records: energy, arrays, distance matrix. *)
Record Result := {
  res_energy : Q;
  res_arrays : Positions;
  res_distances : list (list Q)
}.

Definition set_constraint (c : list (nat * nat)) (a : Atoms) : Atoms :=
  {| arrays := arrays a; constraint := c; calculator := calculator a |}.

Definition set_calculator (k : option Calculator) (a : Atoms) : Atoms :=
  {| arrays := arrays a; constraint := constraint a; calculator := k |}.

(** [opt_conf] up to the write into [return_dict].  It runs in a process of
    its own, on that process's copy of the candidate, so nothing it changes
    is seen by the caller; without a calculator the optimizer raises and the
    unit records nothing. *)
Definition opt_conf (conformer : Conformer) (calc : option Calculator)
  : option Result :=
  let atoms :=
    match ts_labels conformer with
    | Some (l1, l2, l3) =>
        set_constraint [(l1, l2); (l3, l2)] (ase_molecule conformer)
    | None => ase_molecule conformer
    end in
  let atoms := set_calculator calc atoms in
  match calculator atoms with
  | None => None
  | Some k =>
      let p := bfgs_run B k (constraint atoms) (arrays atoms) in
      Some {| res_energy := get_energy B k p;
              res_arrays := p;
              res_distances := get_all_distances B p |}
  end.

(** The shared dictionary: items in insertion order; assigning to a key that
    is present replaces its value in place. *)
Fixpoint dict_set (A : Type) (k : nat) (v : A) (d : list (nat * A))
  : list (nat * A) :=
  match d with
  | [] => [(k, v)]
  | (k', v') :: rest =>
      if (k' =? k)%nat then (k, v) :: rest else (k', v') :: dict_set k v rest
  end.

Fixpoint dict_get (A : Type) (k : nat) (d : list (nat * A)) : option A :=
  match d with
  | [] => None
  | (k', v) :: rest => if (k' =? k)%nat then Some v else dict_get k rest
  end.

(** What unit [i] computes: the candidate [conformers[i]] relaxed. *)
Definition unit_result (st : Store) (conformers : list (nat * loc))
  (calc : option Calculator) (i : nat) : option Result :=
  match dict_get i conformers with
  | None => None
  | Some l =>
      match nth_error st l with
      | None => None
      | Some conf => opt_conf conf calc
      end
  end.

(** The write of unit [i]: [return_dict[i] = (energy, arrays, distances)]. *)
Definition unit_writes (st : Store) (conformers : list (nat * loc))
  (calc : option Calculator) (i : nat) (return_dict : list (nat * Result))
  : list (nat * Result) :=
  match unit_result st conformers calc i with
  | None => return_dict
  | Some r => dict_set i r return_dict
  end.

(** All units are started and waited for; the results are then read from
    the dictionary in its iteration order.  [completion] lists the units in
    the order in which their results are read: the order of their writes
    where a dictionary keeps insertion order.  Two runs on the same input
    differ in this order only. *)
Definition run_processes (st : Store) (conformers : list (nat * loc))
  (calc : option Calculator) (completion : list nat) : list (nat * Result) :=
  fold_left (fun d i => unit_writes st conformers calc i d) completion [].

(** ** The deduplicator *)

(** A row of the data frame: its index label and the three columns. *)
Record Row := {
  df_index : nat;
  df_energy : Q;
  df_arrays : Positions;
  df_distances : list (list Q)
}.

(** [results.append(values)] for every item, then [pd.DataFrame(results)]:
    the keys are dropped and the rows are labelled by position. *)
Fixpoint DataFrame (i : nat) (results : list Result) : list Row :=
  match results with
  | [] => []
  | r :: rest =>
      {| df_index := i; df_energy := res_energy r;
         df_arrays := res_arrays r; df_distances := res_distances r |}
      :: DataFrame (S i) rest
  end.

Definition Qlt_bool (a b : Q) : bool := negb (Qle_bool b a).

Definition Qmin_bool (a b : Q) : Q := if Qle_bool a b then a else b.

(** [df.energy.min()]. *)
Definition energy_min (df : list Row) : option Q :=
  match df with
  | [] => None
  | r :: rest => Some (fold_left Qmin_bool (map df_energy rest) (df_energy r))
  end.

(** [df[df.energy < df.energy.min() + window]]. *)
Definition energy_window (window : Q) (df : list Row) : list Row :=
  match energy_min df with
  | None => []
  | Some m => filter (fun r => Qlt_bool (df_energy r) (m + window)) df
  end.

(** [sort_values("energy")]: ascending; rows of equal energy stay in row
    order, as numpy's sort leaves them on short arrays. *)
Fixpoint insert_row (r : Row) (l : list Row) : list Row :=
  match l with
  | [] => [r]
  | x :: rest =>
      if Qle_bool (df_energy r) (df_energy x) then r :: x :: rest
      else x :: insert_row r rest
  end.

Definition sort_values (df : list Row) : list Row :=
  fold_right insert_row [] df.

(** [np.mean] of an array given by its elements. *)
Definition np_mean (l : list Q) : Q :=
  fold_right Qplus 0 l / inject_Z (Z.of_nat (List.length l)).

(** The shape of a distance matrix, as numpy has it. *)
Definition shape (a : list (list Q)) : nat * nat :=
  (length a, match a with [] => 0%nat | r :: _ => length r end).

(** numpy's broadcasting of an array of two dimensions against an array of
    one dimension and length [m]: the trailing dimensions have to agree, or
    one of them has to be 1; the result has two dimensions. *)
Definition np_broadcast (s : nat * nat) (m : nat) : option (nat * nat) :=
  let '(r, c) := s in
  if ((c =? m) || (c =? 1) || (m =? 1))%nat
  then Some (r, if (c =? 1)%nat then m else c)
  else None.

(** [df['distances'][index] - df.distances]: the matrix of the row at hand
    minus the column itself, a [Series] whose [m] elements are the matrices.
    The subtraction is of the matrix and the array of the [m] elements, not
    row by row.  Where the two do not broadcast numpy raises; where they do
    the result has two dimensions, and a [Series] cannot be built from it. *)
Definition ndarray_sub_series (a : list (list Q)) (s : list (list (list Q)))
  : option (list (list (list Q))) :=
  match np_broadcast (shape a) (length s) with
  | None => None
  | Some _ => None
  end.

(** [np.sqrt(np.mean(d ** 2)) > 0.1] for one element [d] of a series of
    matrices, decided on the square: a mean of squares is not negative, so
    its root exceeds 1/10 exactly when it exceeds 1/100. *)
Definition root_mean_square_gt (d : list (list Q)) : bool :=
  Qlt_bool (1 # 100) (np_mean (map (fun x => x * x) (concat d))).

Definition mem (i : nat) (l : list nat) : bool := existsb (Nat.eqb i) l.

(** The series [is_close] of one pass, by label. *)
Definition is_close (df : list Row) (row : Row) : option (list (nat * bool)) :=
  match ndarray_sub_series (df_distances row) (map df_distances df) with
  | None => None
  | Some differences =>
      Some (combine (map df_index df) (map root_mean_square_gt differences))
  end.

(** The loop over [zip(df.index, df.distances)]; [df['distances'][index]] is
    the matrix of the row labelled [index], the row at hand. *)
Fixpoint dedup_loop (df todo : list Row) (scratch_index unique_index : list nat)
  : option (list nat * list nat) :=
  match todo with
  | [] => Some (scratch_index, unique_index)
  | row :: rest =>
      if mem (df_index row) scratch_index
      then dedup_loop df rest scratch_index unique_index
      else
        let unique_index := unique_index ++ [df_index row] in
        match is_close df row with
        | None => None
        | Some close =>
            let close := filter (fun p => Bool.eqb (snd p) false) close in
            let scratch_index :=
              scratch_index ++
              filter (fun d => negb (mem d scratch_index)) (map fst close) in
            dedup_loop df rest scratch_index unique_index
        end
  end.

(** [df.loc[unique_index]]: the rows with these labels, in this order. *)
Definition loc_rows (df : list Row) (labels : list nat) : list Row :=
  flat_map (fun i => filter (fun r => (df_index r =? i)%nat) df) labels.

(** Window filter, sort and greedy pass: the filtered and sorted frame and
    [unique_index]. *)
Definition deduplicate (window : Q) (df : list Row)
  : option (list Row * list nat) :=
  let df := sort_values (energy_window window df) in
  match dedup_loop df df [] [] with
  | None => None
  | Some (_, unique_index) => Some (df, unique_index)
  end.

(** The rows that survive, as a frame again. *)
Definition kept_rows (window : Q) (df : list Row) : option (list Row) :=
  match deduplicate window df with
  | None => None
  | Some (df', unique_index) => Some (loc_rows df' unique_index)
  end.

(** Ascending order of energy between two rows. *)
Definition le_energy (a b : Row) : Prop := df_energy a <= df_energy b.

(** The columns of a row, without its label. *)
Definition columns (r : Row) : Q * Positions * list (list Q) :=
  (df_energy r, df_arrays r, df_distances r).


(** ** The result assembler *)

Fixpoint assemble (conformer : loc) (i : nat) (infos : list Row)
  : M (list loc) :=
  match infos with
  | [] => ret []
  | info :: rest =>
      copy_conf <- copy conformer ;;
      modify copy_conf (set_energy (Some (df_energy info))) ;;;
      modify copy_conf (set_index i) ;;;
      modify copy_conf (set_positions (df_arrays info)) ;;;
      modify copy_conf update_coords_from_ase ;;;
      l <- copy copy_conf ;;
      confs <- assemble conformer (S i) rest ;;
      ret (l :: confs)
  end.

(** What the assembler makes of the base value [c] for row [info] and
    output index [i]. *)
Definition assembled (c : Conformer) (i : nat) (info : Row) : Conformer :=
  update_coords_from_ase
    (set_positions (df_arrays info)
       (set_index i (set_energy (Some (df_energy info)) c))).

(** The cells the assembler allocates ([copy_conf] and its copy, per row)
    and the references it returns, for a store of [n] cells. *)
Fixpoint assembled_cells (c : Conformer) (i : nat) (infos : list Row)
  : list Conformer :=
  match infos with
  | [] => []
  | info :: rest =>
      assembled c i info :: assembled c i info :: assembled_cells c (S i) rest
  end.

Fixpoint assembled_locs (n : nat) (infos : list Row) : list loc :=
  match infos with
  | [] => []
  | _ :: rest => S n :: assembled_locs (S (S n)) rest
  end.

(** ** The search *)

Definition systematic_search (completion : list nat) (conformer : loc)
  (delta : Z) (cistrans_flag chiral_centers_flag : bool) : M (list loc) :=
  c <- read conformer ;;
  combos <- lift (find_all_combos c delta cistrans_flag chiral_centers_flag) ;;
  any <- lift (np_any combos) ;;
  if negb any then ret [conformer]
  else
    let calc := calculator (ase_molecule c) in
    conformers <- build_candidates conformer 0 combos ;;
    fun st =>
      let return_dict := run_processes st conformers calc completion in
      let results := map snd return_dict in
      let df := DataFrame 0 results in
      match kept_rows (kcal_mol_eV B) df with
      | None => None
      | Some rows => assemble conformer 0 rows st
      end.

End Search.

(** ** Orderings of a tuple of angles *)

Definition nondecreasing (t : list Z) : Prop := StronglySorted Z.le t.
Definition nonincreasing (t : list Z) : Prop := StronglySorted Z.ge t.

(** ** A small backend to run the search on

    A chain of four atoms described by its one internal coordinate, the
    dihedral angle in degrees.  The energy surface is threefold (period 120
    degrees) and the optimizer leaves a geometry where it is. *)

Definition chain_distances (p : Z) : list (list Q) :=
  let d := inject_Z (p mod 120) / 100 in
  [[0; d]; [d; 0]].

Definition chain_backend : Backend Z unit :=
  {| find_terminal_torsions := fun c => ([], torsions c);
     set_dihedral := fun _ angle _ _ => angle;
     set_cistrans := fun _ _ p => p;
     set_chirality := fun _ _ p => p;
     bfgs_run := fun _ _ p => p;
     get_energy := fun _ p => inject_Z (p mod 120) / 1000;
     get_all_distances := chain_distances;
     kcal_mol_eV := 433641 # 10000000;
     ragged_arrays := true |}.

Definition chain_atoms (p : Z) : Atoms Z unit :=
  {| arrays := p; constraint := []; calculator := Some tt |}.

(** A structure with [t] torsions about the chain, [s] cis/trans bonds and
    [k] chiral centers, at dihedral angle [p]. *)
Definition chain (p : Z) (t s k : nat) : Conformer Z unit :=
  {| smiles := "CCCC"; energy := None; index := 0;
     ase_molecule := chain_atoms p; coords := p;
     torsions := repeat {| atom_indices := (0, 1, 2, 3)%nat;
                           mask := [false; false; true; true] |} t;
     cistrans := repeat {| ct_index := 1%nat |} s;
     chiral_centers := repeat {| atom_index := 1%nat |} k;
     ts_labels := None |}.

(** Rows without geometry, for the energy examples. *)
Definition energy_row (i : nat) (e : Q) : Row unit :=
  {| df_index := i; df_energy := e; df_arrays := tt; df_distances := [] |}.


(** ** Counting tuples *)

(** The number of multisets of size [r] over [n] kinds, by the recursion of
    [combinations_with_replacement]: the first element is the kind [m], the
    rest is a multiset over the kinds from [m] on. *)
Fixpoint multichoose (n r : nat) : nat :=
  match r with
  | O => 1%nat
  | S r' =>
      (fix from (m : nat) : nat :=
         match m with
         | O => 0%nat
         | S m' => (multichoose m r' + from m')%nat
         end) n
  end.

Fixpoint multichoose_from (r' m : nat) : nat :=
  match m with
  | O => 0%nat
  | S m' => (multichoose m r' + multichoose_from r' m')%nat
  end.

(** The number of tuples [combos_both_ways] gives for [g] options and [n]
    descriptors: with two descriptors or more the forward and the reversed
    draws share the [g] constant tuples. *)
Definition both_ways_count (g n : nat) : nat :=
  match n with
  | O => 1%nat
  | S O => g
  | _ => (2 * multichoose g n - g)%nat
  end.

(** A relation or equality. *)
Definition reflexive_closure (A : Type) (R : A -> A -> Prop) (x y : A) : Prop :=
  x = y \/ R x y.

(** The order of the options of a two-letter alphabet: [a] before [b]. *)
Definition before (a b x y : string) : Prop := x = a /\ y = b.

(** A tuple of labels in which no [a] follows a [b]. *)
Definition a_then_b (a b : string) (t : list string) : Prop :=
  exists i j, t = repeat a i ++ repeat b j.

(** ** The store and the candidates of a search *)

Section SearchState.

Variables Positions Calculator : Type.
Variable B : Backend Positions Calculator.



End SearchState.

(** * Properties of the enumerator *)

Example cwr_3_2 :
  combinations_with_replacement [0; 120; 240]%Z 2 =
  [[0; 0]; [0; 120]; [0; 240]; [120; 120]; [120; 240]; [240; 240]]%Z.
Proof. reflexivity. Qed.

Example cwr_empty_pool :
  combinations_with_replacement (@nil Z) 0 = [[]] /\
  combinations_with_replacement (@nil Z) 2 = [].
Proof. split; reflexivity. Qed.

Example arange_100 : np_arange 0 360 100 = Some [0; 100; 200; 300]%Z.
Proof. reflexivity. Qed.

Example arange_negative_step : np_arange 0 360 (-30) = Some [].
Proof. reflexivity. Qed.

Example arange_zero_step : np_arange 0 360 0 = None.
Proof. reflexivity. Qed.

Example torsion_combos_two :
  length (torsion_combos [0; 120; 240]%Z 2) = 9%nat /\
  In [240; 0]%Z (torsion_combos [0; 120; 240]%Z 2).
Proof. split; [reflexivity | vm_compute; tauto]. Qed.

Example chiral_flag_has_no_effect :
  find_all_combos chain_backend (chain 60 0 0 1) 120 true false =
  Some [([], [], ["R"%string]); ([], [], ["S"%string])].
Proof. reflexivity. Qed.

Section Enumerator.

Variable A : Type.

Lemma cwr_succ (pool : list A) (r : nat) :
  combinations_with_replacement pool (S r) = cwr_from r pool.
Proof.
  simpl. induction pool as [|x rest IH]; simpl; [reflexivity|].
  now rewrite IH.
Qed.

Lemma cwr_length (r : nat) : forall (pool t : list A),
  In t (combinations_with_replacement pool r) -> length t = r.
Proof.
  induction r as [|r IH]; intros pool t Ht.
  - simpl in Ht. destruct Ht as [<-|[]]. reflexivity.
  - rewrite cwr_succ in Ht.
    induction pool as [|x rest IHp]; simpl in Ht; [contradiction|].
    apply in_app_or in Ht. destruct Ht as [Ht|Ht]; [|now apply IHp].
    apply in_map_iff in Ht. destruct Ht as (t' & <- & Ht').
    simpl. f_equal. eapply IH; eassumption.
Qed.

Lemma cwr_nonempty (r : nat) : forall (pool : list A),
  pool <> [] -> combinations_with_replacement pool r <> [].
Proof.
  induction r as [|r IH]; intros pool Hp; [discriminate|].
  rewrite cwr_succ. destruct pool as [|x rest]; [congruence|].
  simpl. specialize (IH (x :: rest) Hp).
  destruct (combinations_with_replacement (x :: rest) r); [congruence|].
  discriminate.
Qed.

Lemma cwr_one (pool : list A) :
  combinations_with_replacement pool 1 = map (fun x => [x]) pool.
Proof.
  rewrite cwr_succ. induction pool as [|x rest IH]; simpl; [reflexivity|].
  now rewrite IH.
Qed.

(** Tuples drawn from a pool that is sorted for a reflexive relation are
    sorted for it, and made of pool elements. *)
Lemma cwr_sorted (R : A -> A -> Prop) (Hrefl : forall x, R x x) (r : nat) :
  forall (pool t : list A),
    StronglySorted R pool ->
    In t (combinations_with_replacement pool r) ->
    StronglySorted R t /\ Forall (fun x => In x pool) t.
Proof.
  induction r as [|r IH]; intros pool t Hs Ht.
  - simpl in Ht. destruct Ht as [<-|[]]. split; constructor.
  - rewrite cwr_succ in Ht.
    induction pool as [|x rest IHp]; simpl in Ht; [contradiction|].
    apply in_app_or in Ht. destruct Ht as [Ht|Ht].
    + apply in_map_iff in Ht. destruct Ht as (t' & <- & Ht').
      destruct (IH _ _ Hs Ht') as [Hs' Hin]. split.
      * constructor; [assumption|].
        apply StronglySorted_inv in Hs. destruct Hs as [_ Hall].
        rewrite Forall_forall in *. intros y Hy.
        destruct (Hin y Hy) as [<-|Hy']; [apply Hrefl | now apply Hall].
      * constructor; [now left | assumption].
    + apply StronglySorted_inv in Hs. destruct Hs as [Hs _].
      destruct (IHp Hs Ht) as [Hs' Hin]. split; [assumption|].
      rewrite Forall_forall in *. intros y Hy. right. now apply Hin.
Qed.

Variable eq_dec : forall x y : A, {x = y} + {x <> y}.

Lemma combos_both_ways_in (options : list A) (n : nat) (t : list A) :
  In t (combos_both_ways eq_dec options n) <->
  In t (combinations_with_replacement options n) \/
  (n <> 1%nat /\ In t (combinations_with_replacement (rev options) n)).
Proof.
  unfold combos_both_ways, list_set.
  destruct (Nat.eqb_spec n 1) as [->|Hn].
  - split; [now left|]. intros [H|[H _]]; [assumption | congruence].
  - rewrite nodup_In, in_app_iff. split.
    + intros [H|H]; [now left | right; now split].
    + intros [H|[_ H]]; [now left | now right].
Qed.

Lemma combos_both_ways_length (options : list A) (n : nat) (t : list A) :
  In t (combos_both_ways eq_dec options n) -> length t = n.
Proof.
  rewrite combos_both_ways_in. intros [H|[_ H]]; eapply cwr_length; eassumption.
Qed.

Lemma combos_both_ways_nonempty (options : list A) (n : nat) :
  options <> [] -> combos_both_ways eq_dec options n <> [].
Proof.
  intros Ho Hnil.
  pose proof (cwr_nonempty n Ho) as Hne.
  destruct (combinations_with_replacement options n) as [|t l] eqn:E;
    [congruence|].
  assert (In t (combos_both_ways eq_dec options n)) as Hin.
  { apply combos_both_ways_in. left. rewrite E. now left. }
  rewrite Hnil in Hin. contradiction.
Qed.

Lemma combos_both_ways_NoDup (options : list A) (n : nat) :
  NoDup options -> NoDup (combos_both_ways eq_dec options n).
Proof.
  intros Hnd. unfold combos_both_ways, list_set.
  destruct (Nat.eqb_spec n 1) as [->|Hn]; [|apply NoDup_nodup].
  rewrite cwr_one. apply Finite.Injective_map_NoDup; [|assumption].
  intros x y Hxy. now inversion Hxy.
Qed.

End Enumerator.

Lemma product3_in (A B C : Type) (a : list A) (b : list B) (c : list C) x y z :
  In (x, y, z) (product3 a b c) <-> In x a /\ In y b /\ In z c.
Proof.
  unfold product3. rewrite in_flat_map. split.
  - intros (x' & Hx & H). apply in_flat_map in H. destruct H as (y' & Hy & H).
    apply in_map_iff in H. destruct H as (z' & Heq & Hz).
    inversion Heq; subst. auto.
  - intros (Hx & Hy & Hz). exists x. split; [assumption|].
    apply in_flat_map. exists y. split; [assumption|].
    apply in_map_iff. exists z. auto.
Qed.

Lemma product3_length (A B C : Type) (a : list A) (b : list B) (c : list C) :
  length (product3 a b c) = (length a * length b * length c)%nat.
Proof.
  unfold product3. induction a as [|x a IH]; simpl; [reflexivity|].
  rewrite length_app, IH.
  assert (length (flat_map (fun y => map (fun z => (x, y, z)) c) b)
          = (length b * length c)%nat) as ->.
  { clear. induction b as [|y b IHb]; simpl; [reflexivity|].
    now rewrite length_app, length_map, IHb. }
  lia.
Qed.

(** ** The angle grid *)

Lemma ceil_div_spec (a b i : Z) :
  (0 < b -> i < ceil_div a b <-> i * b < a)%Z.
Proof.
  intros Hb. unfold ceil_div.
  pose proof (Z.div_mod (- a) b ltac:(lia)) as Hdm.
  pose proof (Z.mod_pos_bound (- a) b Hb) as Hm.
  split; intros H; nia.
Qed.

Lemma np_arange_grid (delta : Z) :
  (0 < delta)%Z ->
  np_arange 0 360 delta =
  Some (map (fun i => (Z.of_nat i * delta)%Z)
          (seq 0 (Z.to_nat (ceil_div 360 delta)))).
Proof.
  intros Hd. unfold np_arange.
  destruct (Z.eqb_spec delta 0) as [->|_]; [lia|].
  rewrite Z.sub_0_r. reflexivity.
Qed.

Lemma map_seq_sorted (f : nat -> Z) (n : nat) : forall start,
  (forall i j, (i < j)%nat -> (f i < f j)%Z) ->
  StronglySorted Z.lt (map f (seq start n)).
Proof.
  induction n as [|n IH]; intros start Hf; simpl; constructor.
  - now apply IH.
  - rewrite Forall_forall. intros y Hy. apply in_map_iff in Hy.
    destruct Hy as (j & <- & Hj). apply in_seq in Hj. apply Hf. lia.
Qed.

Lemma StronglySorted_weaken (A : Type) (R S : A -> A -> Prop) (l : list A) :
  (forall x y, R x y -> S x y) -> StronglySorted R l -> StronglySorted S l.
Proof.
  intros HRS Hs. induction Hs as [|x l Hs IH Hall]; constructor; auto.
  rewrite Forall_forall in *. auto.
Qed.

Lemma StronglySorted_snoc (A : Type) (R : A -> A -> Prop) (l : list A) (a : A) :
  StronglySorted R l -> Forall (fun x => R x a) l -> StronglySorted R (l ++ [a]).
Proof.
  intros Hs. induction Hs as [|x l Hs IH Hall]; intros Ha; simpl.
  - repeat constructor.
  - inversion Ha; subst. constructor; [now apply IH|].
    apply Forall_app. split; [assumption | now constructor].
Qed.

Lemma StronglySorted_rev (A : Type) (R : A -> A -> Prop) (l : list A) :
  StronglySorted R l -> StronglySorted (fun x y => R y x) (rev l).
Proof.
  intros Hs. induction Hs as [|x l Hs IH Hall]; simpl; [constructor|].
  apply StronglySorted_snoc; [assumption|].
  rewrite Forall_forall in *. intros y Hy. apply Hall. now apply in_rev.
Qed.

Lemma grid_sorted (delta : Z) (grid : list Z) :
  (0 < delta)%Z -> np_arange 0 360 delta = Some grid ->
  StronglySorted Z.lt grid.
Proof.
  intros Hd Hg. rewrite np_arange_grid in Hg by assumption.
  injection Hg as <-. apply map_seq_sorted. intros i j Hij. nia.
Qed.

Lemma grid_NoDup (delta : Z) (grid : list Z) :
  (0 < delta)%Z -> np_arange 0 360 delta = Some grid -> NoDup grid.
Proof.
  intros Hd Hg. pose proof (grid_sorted Hd Hg) as Hs.
  clear Hg. induction Hs as [|x l Hs IH Hall]; constructor; [|assumption].
  intros Hin. rewrite Forall_forall in Hall. specialize (Hall x Hin). lia.
Qed.

Lemma grid_in (delta : Z) (grid : list Z) (x : Z) :
  (0 < delta)%Z -> np_arange 0 360 delta = Some grid ->
  In x grid <-> (exists k, 0 <= k /\ x = k * delta)%Z /\ (0 <= x < 360)%Z.
Proof.
  intros Hd Hg. rewrite np_arange_grid in Hg by assumption.
  injection Hg as <-. rewrite in_map_iff. split.
  - intros (i & <- & Hi). apply in_seq in Hi.
    assert (Z.of_nat i < ceil_div 360 delta)%Z as Hlt by lia.
    apply ceil_div_spec in Hlt; [|assumption].
    split; [exists (Z.of_nat i); lia | nia].
  - intros ((k & Hk & ->) & Hx). exists (Z.to_nat k).
    split; [now rewrite Z2Nat.id|]. apply in_seq.
    assert (k < ceil_div 360 delta)%Z as Hlt
      by (apply ceil_div_spec; [assumption | lia]).
    lia.
Qed.

Lemma torsion_combos_monotone (delta : Z) (grid : list Z) (n : nat) (t : list Z) :
  (0 < delta)%Z -> np_arange 0 360 delta = Some grid ->
  In t (torsion_combos grid n) ->
  nondecreasing t \/ ((1 < n)%nat /\ nonincreasing t).
Proof.
  intros Hd Hg Ht. pose proof (grid_sorted Hd Hg) as Hs.
  unfold torsion_combos in Ht. apply combos_both_ways_in in Ht.
  destruct Ht as [Ht|[Hn Ht]].
  - left. eapply (cwr_sorted (R:=Z.le) Z.le_refl); [|eassumption].
    eapply StronglySorted_weaken; [|eassumption]. intros; lia.
  - destruct n as [|[|n]].
    + left. simpl in Ht. destruct Ht as [<-|[]]. constructor.
    + congruence.
    + right. split; [lia|].
      eapply (cwr_sorted (R:=Z.ge)); [intros; lia| |eassumption].
      apply StronglySorted_rev in Hs.
      eapply StronglySorted_weaken; [|eassumption]. simpl. intros; lia.
Qed.

(** * The claims on the enumerator *)

(** C8.  For a positive step the angle grid is the set of multiples of
    [delta] in [[0, 360)]; the torsion tuples are the combinations with
    replacement of the grid, of size the number of torsions, joined as a set
    (no tuple twice) with those drawn from the reversed grid when there is
    more than one torsion; and the torsion tuples of the emitted combinations
    are exactly these.  For [delta = 120] and one torsion the grid is
    0, 120, 240 and there are three torsion tuples. *)
Theorem torsion_grid_and_tuples :
  (forall (delta : Z) (grid : list Z),
      (0 < delta)%Z -> np_arange 0 360 delta = Some grid ->
      (forall x, In x grid <->
                 (exists k, 0 <= k /\ x = k * delta)%Z /\ (0 <= x < 360)%Z) /\
      NoDup grid /\
      (forall (n : nat) (t : list Z),
          ((n <= 1)%nat ->
           (In t (torsion_combos grid n) <->
            In t (combinations_with_replacement grid n))) /\
          ((1 < n)%nat ->
           (In t (torsion_combos grid n) <->
            In t (combinations_with_replacement grid n) \/
            In t (combinations_with_replacement (rev grid) n)))) /\
      (forall n : nat, NoDup (torsion_combos grid n)) /\
      (forall (Positions Calculator : Type) (B : Backend Positions Calculator)
              (c : Conformer Positions Calculator) (cistrans_flag chiral_flag : bool)
              (combos : list Combo),
          find_all_combos B c delta cistrans_flag chiral_flag = Some combos ->
          forall t, (exists s x, In (t, s, x) combos) <->
                    In t (torsion_combos grid
                            (length (snd (find_terminal_torsions B c)))))) /\
  np_arange 0 360 120 = Some [0; 120; 240]%Z /\
  torsion_combos [0; 120; 240]%Z 1 = [[0]; [120]; [240]]%Z /\
  length (torsion_combos [0; 120; 240]%Z 1) = 3%nat.
Proof.
  split; [|repeat split; reflexivity].
  intros delta grid Hd Hg. split; [|split; [|split; [|split]]].
  - intros x. now apply grid_in.
  - eapply grid_NoDup; eassumption.
  - intros n t. unfold torsion_combos. rewrite combos_both_ways_in. split.
    + intros Hn. split; [|now left]. intros [H|[Hn1 H]]; [assumption|].
      assert (n = 0%nat) as -> by lia.
      simpl in *. assumption.
    + intros Hn. split.
      * intros [H|[_ H]]; [now left | now right].
      * intros [H|H]; [now left | right; split; [lia | assumption]].
  - intros n. apply combos_both_ways_NoDup. eapply grid_NoDup; eassumption.
  - intros Positions Calculator B c cf hf combos Hc t.
    unfold find_all_combos in Hc.
    destruct (find_terminal_torsions B c) as [terminal tors]. simpl.
    rewrite Hg in Hc. injection Hc as <-. split.
    + intros (s & x & Hin). apply product3_in in Hin. tauto.
    + intros Ht.
      assert (cistrans_combos cf (length (cistrans c)) <> []) as Hs.
      { unfold cistrans_combos. destruct cf; [|discriminate].
        apply combos_both_ways_nonempty. discriminate. }
      assert (chiral_combos (length (chiral_centers c)) <> []) as Hx.
      { unfold chiral_combos.
        destruct (negb (length (chiral_centers c) =? 0)%nat); [|discriminate].
        apply combos_both_ways_nonempty. discriminate. }
      destruct (cistrans_combos cf (length (cistrans c))) as [|s ?] eqn:Es;
        [congruence|].
      destruct (chiral_combos (length (chiral_centers c))) as [|x ?] eqn:Ex;
        [congruence|].
      exists s, x. apply product3_in. simpl. auto.
Qed.

(** C10.  For a positive step every torsion tuple that [find_all_combos]
    emits is monotone: non-decreasing, or, only with more than one torsion,
    non-increasing; a tuple that is neither, such as (0, 240, 120), is not
    enumerated. *)
Theorem emitted_torsion_tuples_monotone
  (Positions Calculator : Type) (B : Backend Positions Calculator)
  (c : Conformer Positions Calculator) (delta : Z)
  (cistrans_flag chiral_flag : bool) (combos : list Combo)
  (t : list Z) (s x : list string) :
  (0 < delta)%Z ->
  find_all_combos B c delta cistrans_flag chiral_flag = Some combos ->
  (In (t, s, x) combos ->
   nondecreasing t \/
   ((1 < length (snd (find_terminal_torsions B c)))%nat /\ nonincreasing t)) /\
  ~ In ([0; 240; 120]%Z, s, x) combos.
Proof.
  intros Hd Hc. unfold find_all_combos in Hc.
  destruct (find_terminal_torsions B c) as [terminal tors]. simpl.
  destruct (np_arange 0 360 delta) as [grid|] eqn:Hg; [|discriminate].
  injection Hc as <-.
  assert (forall t', In (t', s, x)
            (product3 (torsion_combos grid (length tors))
               (cistrans_combos cistrans_flag (length (cistrans c)))
               (chiral_combos (length (chiral_centers c)))) ->
          nondecreasing t' \/ ((1 < length tors)%nat /\ nonincreasing t')) as Hm.
  { intros t' Hin. apply product3_in in Hin. destruct Hin as (Ht & _ & _).
    eapply torsion_combos_monotone; eassumption. }
  split; [apply Hm|].
  intros Hin. destruct (Hm _ Hin) as [H|[_ H]].
  - inversion H as [|? ? Hs _]; subst. inversion Hs as [|? ? _ Hall]; subst.
    inversion Hall as [|? ? Hle _]; subst. lia.
  - inversion H as [|? ? _ Hall]; subst. inversion Hall as [|? ? Hge _]; subst.
    lia.
Qed.

Lemma torsion_grid_and_tuples_witness :
  In 240%Z [0; 120; 240]%Z <->
  (exists k, 0 <= k /\ 240 = k * 120)%Z /\ (0 <= 240 < 360)%Z.
Proof.
  apply (proj1 torsion_grid_and_tuples 120%Z [0; 120; 240]%Z);
    [lia | reflexivity].
Defined.

Lemma emitted_torsion_tuples_monotone_witness :
  nondecreasing [240; 120]%Z \/
  ((1 < length (snd (find_terminal_torsions chain_backend (chain 60 2 0 0))))%nat /\
   nonincreasing [240; 120]%Z).
Proof.
  refine (proj1 (@emitted_torsion_tuples_monotone Z unit chain_backend
                   (chain 60 2 0 0) 120%Z true true _
                   [240; 120]%Z [] [] _ _) _);
    [lia | vm_compute; reflexivity | simpl; auto 12].
Defined.

Lemma cistrans_combos_length (flag : bool) (n : nat) (s : list string) :
  In s (cistrans_combos flag n) ->
  (flag = true -> length s = n) /\ (flag = false -> s = []).
Proof.
  unfold cistrans_combos. destruct flag; intros Hs.
  - split; [|discriminate]. intros _. eapply combos_both_ways_length; eassumption.
  - split; [discriminate|]. intros _. destruct Hs as [<-|[]]. reflexivity.
Qed.

Lemma chiral_combos_length (n : nat) (x : list string) :
  In x (chiral_combos n) -> length x = n.
Proof.
  unfold chiral_combos. destruct (Nat.eqb_spec n 0) as [->|Hn]; simpl.
  - intros [<-|[]]. reflexivity.
  - apply combos_both_ways_length.
Qed.

(** C3, as stated, fails when cis/trans enumeration is switched off: a
    structure with one torsion and one cis/trans bond gets combinations whose
    label tuple is empty, not of length one. *)
Lemma combo_lengths_counterexample :
  find_all_combos chain_backend (chain 60 1 1 0) 120 false true =
    Some [([0%Z], [], []); ([120%Z], [], []); ([240%Z], [], [])] /\
  length (cistrans (chain 60 1 1 0)) = 1%nat /\
  ~ (forall (c : Conformer Z unit) (delta : Z) (cf hf : bool)
            (combos : list Combo) t s x,
        find_all_combos chain_backend c delta cf hf = Some combos ->
        In (t, s, x) combos ->
        length t = length (snd (find_terminal_torsions chain_backend c)) /\
        length s = length (cistrans c) /\
        length x = length (chiral_centers c)).
Proof.
  split; [reflexivity|]. split; [reflexivity|].
  intros H.
  specialize (H (chain 60 1 1 0) 120%Z false true _ [0%Z] [] [] eq_refl
                (or_introl eq_refl)).
  destruct H as (_ & H & _). discriminate H.
Qed.

(** C3, amended.  For every structure, flags and non-zero step,
    [find_all_combos] returns a list whose length is the product of the
    numbers of torsion tuples, cis/trans tuples and chirality tuples; in every
    combination the angles are as many as the torsions, the cis/trans labels
    are as many as the cis/trans bonds when that enumeration is enabled and
    none when it is disabled, and the chirality labels are as many as the
    chiral centers when that enumeration is enabled. *)
Theorem find_all_combos_count_and_lengths
  (Positions Calculator : Type) (B : Backend Positions Calculator)
  (c : Conformer Positions Calculator) (delta : Z)
  (cistrans_flag chiral_flag : bool) :
  delta <> 0%Z ->
  exists grid combos,
    np_arange 0 360 delta = Some grid /\
    find_all_combos B c delta cistrans_flag chiral_flag = Some combos /\
    length combos =
      (length (torsion_combos grid (length (snd (find_terminal_torsions B c)))) *
       length (cistrans_combos cistrans_flag (length (cistrans c))) *
       length (chiral_combos (length (chiral_centers c))))%nat /\
    forall t s x, In (t, s, x) combos ->
      length t = length (snd (find_terminal_torsions B c)) /\
      (cistrans_flag = true -> length s = length (cistrans c)) /\
      (cistrans_flag = false -> s = []) /\
      (chiral_flag = true -> length x = length (chiral_centers c)).
Proof.
  intros Hd. unfold find_all_combos, np_arange.
  destruct (find_terminal_torsions B c) as [terminal tors]. simpl.
  destruct (Z.eqb_spec delta 0) as [|_]; [contradiction|].
  eexists. eexists. split; [reflexivity|]. split; [reflexivity|].
  split; [apply product3_length|].
  intros t s x Hin. apply product3_in in Hin. destruct Hin as (Ht & Hs & Hx).
  split; [eapply combos_both_ways_length; exact Ht|].
  apply cistrans_combos_length in Hs. destruct Hs as [Hs1 Hs2].
  split; [assumption|]. split; [assumption|].
  intros _. now apply chiral_combos_length.
Qed.

Lemma find_all_combos_count_and_lengths_witness :
  exists grid combos,
    np_arange 0 360 120 = Some grid /\
    find_all_combos chain_backend (chain 60 1 1 0) 120 false true = Some combos /\
    length combos =
      (length (torsion_combos grid
                 (length (snd (find_terminal_torsions chain_backend
                                 (chain 60 1 1 0))))) *
       length (cistrans_combos false (length (cistrans (chain 60 1 1 0)))) *
       length (chiral_combos (length (chiral_centers (chain 60 1 1 0)))))%nat /\
    forall t s x, In (t, s, x) combos ->
      length t = length (snd (find_terminal_torsions chain_backend
                                (chain 60 1 1 0))) /\
      (false = true -> length s = length (cistrans (chain 60 1 1 0))) /\
      (false = false -> s = []) /\
      (true = true -> length x = length (chiral_centers (chain 60 1 1 0))).
Proof.
  apply (@find_all_combos_count_and_lengths Z unit chain_backend
           (chain 60 1 1 0) 120%Z false true).
  lia.
Defined.

(** * Properties of the deduplicator *)

Lemma Qlt_bool_iff (a b : Q) : Qlt_bool a b = true <-> a < b.
Proof.
  unfold Qlt_bool. rewrite negb_true_iff. split.
  - intros H. apply Qnot_le_lt. intros Hle.
    apply Qle_bool_iff in Hle. congruence.
  - intros H. destruct (Qle_bool b a) eqn:E; [|reflexivity].
    apply Qle_bool_iff in E. exfalso. eapply Qlt_not_le; eassumption.
Qed.

Lemma Qmin_bool_spec (a b : Q) :
  (Qmin_bool a b = a \/ Qmin_bool a b = b) /\
  Qmin_bool a b <= a /\ Qmin_bool a b <= b.
Proof.
  unfold Qmin_bool. destruct (Qle_bool a b) eqn:E.
  - apply Qle_bool_iff in E. repeat split; auto. apply Qle_refl.
  - assert (b < a) as H by (apply Qlt_bool_iff; unfold Qlt_bool; now rewrite E).
    repeat split; auto; [now apply Qlt_le_weak | apply Qle_refl].
Qed.

Lemma fold_Qmin_spec (l : list Q) : forall a,
  let m := fold_left Qmin_bool l a in
  (m = a \/ In m l) /\ m <= a /\ Forall (fun x => m <= x) l.
Proof.
  induction l as [|x l IH]; intros a; simpl.
  - repeat split; auto. apply Qle_refl.
  - destruct (IH (Qmin_bool a x)) as (Hin & Hle & Hall).
    destruct (Qmin_bool_spec a x) as (Hab & Ha & Hx).
    repeat split.
    + destruct Hin as [Hin|Hin]; [|now right; right].
      rewrite Hin. destruct Hab as [->| ->]; [now left | right; now left].
    + eapply Qle_trans; eassumption.
    + constructor; [eapply Qle_trans; eassumption | assumption].
Qed.

Section Deduplicator.

Variable Positions : Type.
Local Abbreviation Row := (Row Positions).

Lemma energy_min_spec (df : list Row) (m : Q) :
  energy_min df = Some m ->
  Forall (fun r => m <= df_energy r) df /\
  exists r, In r df /\ df_energy r = m.
Proof.
  destruct df as [|r rest]; simpl; [discriminate|].
  intros [= <-].
  destruct (fold_Qmin_spec (map df_energy rest) (df_energy r))
    as (Hin & Hle & Hall).
  split.
  - constructor; [assumption|].
    rewrite Forall_forall in *. intros x Hx. apply Hall.
    now apply in_map.
  - destruct Hin as [Hin|Hin].
    + exists r. split; [now left | now symmetry].
    + apply in_map_iff in Hin. destruct Hin as (x & Hx & Hin).
      exists x. split; [now right | assumption].
Qed.

Lemma energy_min_some (df : list Row) :
  df <> [] -> exists m, energy_min df = Some m.
Proof. destruct df; [congruence|]. intros _. eexists. reflexivity. Qed.

Lemma energy_window_in (w : Q) (df : list Row) (r : Row) :
  In r (energy_window w df) <->
  In r df /\ exists m, energy_min df = Some m /\ df_energy r < m + w.
Proof.
  unfold energy_window. destruct (energy_min df) as [m|] eqn:Em.
  - rewrite filter_In, Qlt_bool_iff. split.
    + intros [Hin Hlt]. split; [assumption|]. now exists m.
    + intros [Hin (m' & [= <-] & Hlt)]. now split.
  - split; [contradiction|]. intros [_ (m & Hm & _)]. discriminate.
Qed.

Lemma insert_row_perm (r : Row) (l : list Row) :
  Permutation (insert_row r l) (r :: l).
Proof.
  induction l as [|x l IH]; simpl; [reflexivity|].
  destruct (Qle_bool (df_energy r) (df_energy x)); [reflexivity|].
  rewrite IH. apply perm_swap.
Qed.

Lemma sort_values_perm (df : list Row) : Permutation (sort_values df) df.
Proof.
  induction df as [|r df IH]; simpl; [reflexivity|].
  unfold sort_values in *. simpl. rewrite insert_row_perm. now constructor.
Qed.

Lemma insert_row_sorted (r : Row) (l : list Row) :
  StronglySorted le_energy l -> StronglySorted le_energy (insert_row r l).
Proof.
  intros Hs. induction Hs as [|x l Hs IH Hall]; simpl.
  - repeat constructor.
  - destruct (Qle_bool (df_energy r) (df_energy x)) eqn:E.
    + apply Qle_bool_iff in E. constructor; [now constructor|].
      constructor; [assumption|].
      rewrite Forall_forall in *. intros y Hy.
      unfold le_energy in *. eapply Qle_trans; [exact E | now apply Hall].
    + constructor; [assumption|].
      eapply Permutation_Forall; [symmetry; apply insert_row_perm|].
      constructor; [|assumption].
      unfold le_energy. apply Qlt_le_weak. apply Qlt_bool_iff.
      unfold Qlt_bool. now rewrite E.
Qed.

Lemma sort_values_sorted (df : list Row) :
  StronglySorted le_energy (sort_values df).
Proof.
  induction df as [|r df IH]; [constructor|].
  unfold sort_values in *. simpl. now apply insert_row_sorted.
Qed.

Lemma sort_values_of_sorted (df : list Row) :
  StronglySorted le_energy df -> sort_values df = df.
Proof.
  intros Hs. induction Hs as [|x l Hs IH Hall]; [reflexivity|].
  unfold sort_values in *. simpl. rewrite IH.
  destruct l as [|y l']; [reflexivity|]. simpl.
  inversion Hall as [|? ? Hxy _]; subst.
  apply Qle_bool_iff in Hxy. now rewrite Hxy.
Qed.

End Deduplicator.

(** C4, as stated, fails at the boundary: with energies 0 and 1 and a window
    of 1, the second row has energy equal to the minimum plus the window and
    is dropped. *)
Lemma energy_window_boundary_counterexample :
  energy_min [energy_row 0 0; energy_row 1 1] = Some 0 /\
  df_energy (energy_row 1 1) <= 0 + 1 /\
  sort_values (energy_window 1 [energy_row 0 0; energy_row 1 1])
    = [energy_row 0 0] /\
  ~ (forall (w : Q) (df : list (Row unit)) (m : Q) (r : Row unit),
        energy_min df = Some m ->
        (In r (sort_values (energy_window w df)) <->
         In r df /\ df_energy r <= m + w)).
Proof.
  split; [reflexivity|]. split; [vm_compute; discriminate|].
  split; [reflexivity|].
  intros H.
  specialize (H 1 [energy_row 0 0; energy_row 1 1] 0 (energy_row 1 1) eq_refl).
  destruct H as [_ H].
  assert (In (energy_row 1 1) [energy_row 0 0]) as Hin.
  { apply H. split; [right; now left | vm_compute; discriminate]. }
  destruct Hin as [Heq|[]]. discriminate Heq.
Qed.

(** C4, amended.  The deduplicator retains exactly the rows whose energy is
    strictly less than the minimum energy of the frame plus the window (each
    once), and sorts them ascending by energy; with energies 0, 0.2 and 2
    times a positive window only the first two rows are retained. *)
Theorem energy_window_retains_and_sorts (Positions : Type) :
  (forall (w : Q) (df : list (Row Positions)),
      (forall r, In r (sort_values (energy_window w df)) <->
                 In r df /\
                 exists m, energy_min df = Some m /\ df_energy r < m + w) /\
      (forall m, energy_min df = Some m ->
                 Forall (fun r => m <= df_energy r) df /\
                 exists r, In r df /\ df_energy r = m) /\
      Permutation (sort_values (energy_window w df)) (energy_window w df) /\
      StronglySorted le_energy (sort_values (energy_window w df))) /\
  (forall (w : Q) (r0 r1 r2 : Row Positions),
      0 < w ->
      df_energy r0 == 0 -> df_energy r1 == (2 # 10) * w ->
      df_energy r2 == 2 * w ->
      sort_values (energy_window w [r0; r1; r2]) = [r0; r1]).
Proof.
  split.
  - intros w df. split; [|split; [|split]].
    + intros r. split.
      * intros Hin. apply (Permutation_in _ (sort_values_perm _)) in Hin.
        now apply energy_window_in in Hin.
      * intros Hin.
        apply (Permutation_in _ (Permutation_sym (sort_values_perm _))).
        now apply energy_window_in.
    + intros m. apply energy_min_spec.
    + apply sort_values_perm.
    + apply sort_values_sorted.
  - intros w r0 r1 r2 Hw H0 H1 H2.
    assert (energy_window w [r0; r1; r2] = [r0; r1]) as ->.
    { unfold energy_window.
      destruct (energy_min [r0; r1; r2]) as [m|] eqn:Em; [|discriminate].
      apply energy_min_spec in Em. destruct Em as [Hall (r & Hr & Hm)].
      inversion Hall as [|? ? Hm0 _]; subst.
      assert (0 <= df_energy r) as Hpos.
      { destruct Hr as [<-|[<-|[<-|[]]]]; lra. }
      simpl.
      assert (Qlt_bool (df_energy r0) (df_energy r + w) = true) as ->
        by (apply Qlt_bool_iff; lra).
      assert (Qlt_bool (df_energy r1) (df_energy r + w) = true) as ->
        by (apply Qlt_bool_iff; lra).
      assert (Qlt_bool (df_energy r2) (df_energy r + w) = false) as ->.
      { destruct (Qlt_bool (df_energy r2) (df_energy r + w)) eqn:E;
          [|reflexivity].
        apply Qlt_bool_iff in E. lra. }
      reflexivity. }
    apply sort_values_of_sorted. repeat constructor. unfold le_energy. lra.
Qed.

Lemma energy_window_retains_and_sorts_witness :
  sort_values (energy_window 1 [energy_row 0 0; energy_row 1 (2 # 10);
                                energy_row 2 2])
  = [energy_row 0 0; energy_row 1 (2 # 10)].
Proof.
  apply (proj2 (energy_window_retains_and_sorts unit) 1
           (energy_row 0 0) (energy_row 1 (2 # 10)) (energy_row 2 2));
    vm_compute; try reflexivity; discriminate.
Defined.

(** ** The greedy pass *)

Section GreedyPass.

Variable Positions : Type.
Local Abbreviation Row := (Row Positions).









End GreedyPass.



(** * Properties of the store *)

Section StoreFacts.

Variables Positions Calculator : Type.
Local Abbreviation Conformer := (Conformer Positions Calculator).
Local Abbreviation Store := (Store Positions Calculator).

Lemma update_length (st : Store) : forall (l : loc) (c : Conformer),
  length (update st l c) = length st.
Proof.
  induction st as [|x st IH]; intros [|l] c; simpl; auto.
Qed.

Lemma nth_error_update_eq (st : Store) : forall (l : loc) (c : Conformer),
  (l < length st)%nat -> nth_error (update st l c) l = Some c.
Proof.
  induction st as [|x st IH]; intros [|l] c Hl; simpl in *; try lia; auto.
  apply IH. lia.
Qed.

Lemma nth_error_update_neq (st : Store) : forall (l l' : loc) (c : Conformer),
  l' <> l -> nth_error (update st l c) l' = nth_error st l'.
Proof.
  induction st as [|x st IH]; intros [|l] [|l'] c Hneq; simpl; auto;
    try congruence.
Qed.

Lemma update_update (st : Store) : forall (l : loc) (c c' : Conformer),
  update (update st l c) l c' = update st l c'.
Proof.
  induction st as [|x st IH]; intros [|l] c c'; simpl; auto.
  now rewrite IH.
Qed.

Lemma update_app (st : Store) : forall (l : loc) (c : Conformer) (t : Store),
  (l < length st)%nat -> update (st ++ t) l c = update st l c ++ t.
Proof.
  induction st as [|x st IH]; intros [|l] c t Hl; simpl in *; try lia; auto.
  rewrite IH by lia. reflexivity.
Qed.

Lemma update_same (st : Store) : forall (l : loc) (c : Conformer),
  nth_error st l = Some c -> update st l c = st.
Proof.
  induction st as [|x st IH]; intros [|l] c Hc; simpl in *; try discriminate.
  - now injection Hc as ->.
  - now rewrite IH.
Qed.

Lemma last_cons (A : Type) (l : list A) : forall (a d : A),
  last (a :: l) d = last l a.
Proof.
  induction l as [|x l IH]; intros a d; [reflexivity|].
  change (last (a :: x :: l) d) with (last (x :: l) d).
  rewrite (IH x d), (IH x a). reflexivity.
Qed.

Variable B : Backend Positions Calculator.

(** The candidate builder, in closed form: the object [conformer] ends with
    the value left by the last combination, and the candidates are new cells,
    one per combination, holding the value the object had after it. *)
Lemma build_candidates_spec (conformer : loc) (combos : list Combo) :
  forall (i : nat) (st : Store) (c : Conformer),
    nth_error st conformer = Some c ->
    build_candidates B conformer i combos st =
    match successive B combos c with
    | None => None
    | Some cs =>
        Some (combine (seq i (length cs)) (seq (length st) (length cs)),
              update st conformer (last cs c) ++ cs)
    end.
Proof.
  induction combos as [|combo rest IH]; intros i st c Hc.
  - simpl. unfold ret. rewrite app_nil_r, update_same by assumption.
    reflexivity.
  - assert (conformer < length st)%nat as Hlt
      by (apply nth_error_Some; congruence).
    simpl. unfold bind at 1, read, lift. rewrite Hc.
    unfold bind at 1, lift.
    destruct (apply_combo B combo c) as [c'|]; [|reflexivity].
    unfold bind at 1, modify, bind at 1, read, lift. rewrite Hc.
    unfold bind at 1, copy, bind at 1, read, lift.
    rewrite nth_error_update_eq by assumption.
    unfold bind at 1.
    rewrite (IH (S i) _ c').
    2:{ rewrite nth_error_app1 by (rewrite update_length; assumption).
        now apply nth_error_update_eq. }
    destruct (successive B rest c') as [cs|]; [|reflexivity].
    unfold ret. simpl. rewrite update_length, length_app, update_length.
    simpl. rewrite Nat.add_1_r. f_equal. f_equal.
    rewrite update_app by (rewrite update_length; assumption).
    change (match cs with [] => c' | _ :: _ => last cs c end)
      with (last (c' :: cs) c).
    rewrite update_update, <- app_assoc, last_cons. reflexivity.
Qed.

End StoreFacts.

(** * The claims on the candidate builder and the search *)

(** C1, as stated, fails: the combinations are applied to the base
    structure itself.  On a chain at 60 degrees with one torsion and a step
    of 120 degrees, the base structure is left at 240 degrees. *)
Lemma base_structure_modified_counterexample :
  find_all_combos chain_backend (chain 60 1 0 0) 120 true true =
    Some [([0%Z], [], []); ([120%Z], [], []); ([240%Z], [], [])] /\
  build_candidates chain_backend 0%nat 0%nat
    [([0%Z], [], []); ([120%Z], [], []); ([240%Z], [], [])]
    [chain 60 1 0 0] =
    Some ([(0, 1); (1, 2); (2, 3)]%nat,
          [chain 240 1 0 0; chain 0 1 0 0; chain 120 1 0 0; chain 240 1 0 0]) /\
  chain 240 1 0 0 <> chain 60 1 0 0.
Proof.
  split; [reflexivity|]. split; [reflexivity|]. discriminate.
Qed.

(** C1, amended.  Building the candidates applies each combination, in
    turn, to the base structure itself and stores a copy taken right after:
    the base structure ends with the value left by the last combination,
    candidate number [k] is a new cell holding the value the base had after
    combination [k], and every other cell of the store is untouched.  The
    candidates are pairwise distinct cells, distinct from the base, so that
    setting the positions of one candidate changes that candidate and
    neither the base structure nor any sibling candidate. *)
Theorem candidates_are_independent_copies
  (Positions Calculator : Type) (B : Backend Positions Calculator)
  (conformer : loc) (i : nat) (combos : list Combo)
  (st st' : Store Positions Calculator) (c : Conformer Positions Calculator)
  (conformers : list (nat * loc)) :
  nth_error st conformer = Some c ->
  build_candidates B conformer i combos st = Some (conformers, st') ->
  (exists cs,
      successive B combos c = Some cs /\
      nth_error st' conformer = Some (last cs c) /\
      map fst conformers = seq i (length combos) /\
      (forall k l, nth_error (map snd conformers) k = Some l ->
                   (length st <= l)%nat /\ nth_error st' l = nth_error cs k) /\
      (forall l, (l < length st)%nat -> l <> conformer ->
                 nth_error st' l = nth_error st l)) /\
  NoDup (conformer :: map snd conformers) /\
  (forall l p, In l (map snd conformers) ->
     exists ck,
       nth_error st' l = Some ck /\
       modify l (set_positions p) st' =
         Some (tt, update st' l (set_positions p ck)) /\
       nth_error (update st' l (set_positions p ck)) l =
         Some (set_positions p ck) /\
       nth_error (update st' l (set_positions p ck)) conformer =
         nth_error st' conformer /\
       forall l', In l' (map snd conformers) -> l' <> l ->
         nth_error (update st' l (set_positions p ck)) l' = nth_error st' l').
Proof.
  intros Hc Hb.
  assert (conformer < length st)%nat as Hlt
    by (apply nth_error_Some; congruence).
  rewrite (build_candidates_spec B conformer combos i st Hc) in Hb.
  destruct (successive B combos c) as [cs|] eqn:Hs; [|discriminate].
  injection Hb as <- <-.
  assert (length cs = length combos) as Hlen.
  { clear - Hs. revert c cs Hs.
    induction combos as [|combo rest IH]; intros c cs Hs; simpl in Hs.
    - now injection Hs as <-.
    - destruct (apply_combo B combo c) as [c'|]; [|discriminate].
      destruct (successive B rest c') as [cs'|] eqn:E; [|discriminate].
      injection Hs as <-. simpl. f_equal. eapply IH; eassumption. }
  assert (map snd (combine (seq i (length cs)) (seq (length st) (length cs)))
          = seq (length st) (length cs)) as Hsnd.
  { generalize (length st) as a. generalize i. generalize (length cs) as n.
    induction n as [|n IH]; intros j a; simpl; [reflexivity|].
    now rewrite IH. }
  assert (map fst (combine (seq i (length cs)) (seq (length st) (length cs)))
          = seq i (length cs)) as Hfst.
  { generalize (length st) as a. generalize i. generalize (length cs) as n.
    induction n as [|n IH]; intros j a; simpl; [reflexivity|].
    now rewrite IH. }
  unfold loc in *. rewrite Hsnd.
  assert (forall l, In l (seq (length st) (length cs)) ->
            (length st <= l < length st + length cs)%nat) as Hrange
    by (intros l Hl; apply in_seq in Hl; lia).
  split; [|split].
  - exists cs. split; [reflexivity|]. split; [|split; [|split]].
    + rewrite nth_error_app1 by (rewrite update_length; assumption).
      now apply nth_error_update_eq.
    + now rewrite Hfst, Hlen.
    + intros k l Hk.
      assert (k < length cs)%nat as Hklt.
      { assert (nth_error (seq (length st) (length cs)) k <> None) as Hk'
          by congruence.
        apply nth_error_Some in Hk'. now rewrite length_seq in Hk'. }
      rewrite nth_error_seq in Hk.
      destruct (Nat.ltb_spec k (length cs)); [|lia].
      injection Hk as <-. split; [lia|].
      rewrite nth_error_app2 by (rewrite update_length; lia).
      rewrite update_length. f_equal. lia.
    + intros l Hl Hneq.
      rewrite nth_error_app1 by (rewrite update_length; assumption).
      now apply nth_error_update_neq.
  - constructor; [|apply seq_NoDup].
    intros Hin. apply Hrange in Hin. lia.
  - intros l p Hl. apply Hrange in Hl.
    set (st' := update st conformer (last cs c) ++ cs).
    assert (length st' = (length st + length cs)%nat) as Hlen'
      by (unfold st'; now rewrite length_app, update_length).
    destruct (nth_error st' l) as [ck|] eqn:Hk.
    2:{ apply nth_error_None in Hk. lia. }
    exists ck. split; [reflexivity|]. split; [|split; [|split]].
    + unfold modify, bind, read, lift. now rewrite Hk.
    + apply nth_error_update_eq. lia.
    + apply nth_error_update_neq. lia.
    + intros l' _ Hneq. now apply nth_error_update_neq.
Qed.

Lemma candidates_are_independent_copies_witness :
  NoDup (0%nat :: map snd [(0, 1); (1, 2); (2, 3)]%nat).
Proof.
  apply (@candidates_are_independent_copies Z unit chain_backend 0%nat 0%nat
           [([0%Z], [], []); ([120%Z], [], []); ([240%Z], [], [])]
           [chain 60 1 0 0]
           [chain 240 1 0 0; chain 0 1 0 0; chain 120 1 0 0; chain 240 1 0 0]
           (chain 60 1 0 0) [(0, 1); (1, 2); (2, 3)]%nat eq_refl eq_refl).
Defined.

(** C2.  For a structure with no torsion to enumerate, no cis/trans bond and
    no chiral center (and a non-zero step), the search returns exactly one
    result, the input structure itself, and no object of the store has
    changed. *)
Theorem zero_descriptors_returns_input
  (Positions Calculator : Type) (B : Backend Positions Calculator)
  (completion : list nat) (conformer : loc) (delta : Z)
  (cistrans_flag chiral_flag : bool)
  (st : Store Positions Calculator) (c : Conformer Positions Calculator) :
  nth_error st conformer = Some c ->
  snd (find_terminal_torsions B c) = [] ->
  cistrans c = [] ->
  chiral_centers c = [] ->
  delta <> 0%Z ->
  find_all_combos B c delta cistrans_flag chiral_flag = Some [([], [], [])] /\
  systematic_search B completion conformer delta cistrans_flag chiral_flag st
  = Some ([conformer], st).
Proof.
  intros Hc Ht Hs Hx Hd.
  assert (find_all_combos B c delta cistrans_flag chiral_flag
          = Some [([], [], [])]) as Hcombos.
  { unfold find_all_combos, np_arange.
    destruct (find_terminal_torsions B c) as [terminal tors].
    simpl in Ht. subst tors. rewrite Hs, Hx.
    destruct (Z.eqb_spec delta 0) as [|_]; [contradiction|].
    destruct cistrans_flag; reflexivity. }
  split; [assumption|].
  unfold systematic_search, bind, read, lift. rewrite Hc, Hcombos.
  reflexivity.
Qed.

Lemma zero_descriptors_returns_input_witness :
  find_all_combos chain_backend (chain 60 0 0 0) 30 true true
  = Some [([], [], [])] /\
  systematic_search chain_backend [] 0%nat 30 true true [chain 60 0 0 0]
  = Some ([0%nat], [chain 60 0 0 0]).
Proof.
  apply (@zero_descriptors_returns_input Z unit chain_backend [] 0%nat 30%Z
           true true [chain 60 0 0 0] (chain 60 0 0 0));
    try reflexivity.
  lia.
Defined.

(** ** The assembler *)

Section AssemblerFacts.

Variables Positions Calculator : Type.
Local Abbreviation Conformer := (Conformer Positions Calculator).
Local Abbreviation Store := (Store Positions Calculator).
Local Abbreviation Row := (Row Positions).







Lemma assembled_locs_length (infos : list Row) : forall n,
  length (assembled_locs n infos) = length infos.
Proof. induction infos as [|r l IH]; intros n; simpl; auto. Qed.

Lemma assembled_nth (c : Conformer) (infos : list Row) :
  forall (i j : nat) (pre : Store) (l : loc) (row : Row),
    nth_error (assembled_locs (length pre) infos) j = Some l ->
    nth_error infos j = Some row ->
    nth_error (pre ++ assembled_cells c i infos) l
    = Some (assembled c (i + j) row).
Proof.
  induction infos as [|info rest IH]; intros i j pre l row Hl Hrow.
  - destruct j; discriminate.
  - destruct j as [|j]; simpl in Hl, Hrow.
    + injection Hl as <-. injection Hrow as <-.
      rewrite nth_error_app2 by lia.
      replace (S (length pre) - length pre)%nat with 1%nat by lia.
      rewrite Nat.add_0_r. reflexivity.
    + specialize (IH (S i) j (pre ++ [assembled c i info; assembled c i info])
                    l row).
      rewrite length_app in IH. simpl in IH.
      replace (length pre + 2)%nat with (S (S (length pre))) in IH by lia.
      rewrite <- app_assoc in IH. simpl in IH.
      replace (i + S j)%nat with (S i + j)%nat by lia.
      now apply IH.
Qed.

End AssemblerFacts.

(** ** The candidate builder does not fail *)

Section BuilderTotal.

Variables Positions Calculator : Type.
Variable B : Backend Positions Calculator.
Local Abbreviation Conformer := (Conformer Positions Calculator).







End BuilderTotal.

(** ** Frames that hold the same rows in another order *)


Section Columns.

Variable Positions : Type.
Local Abbreviation Row := (Row Positions).

Lemma columns_energy (r : Row) : fst (fst (columns r)) = df_energy r.
Proof. reflexivity. Qed.






End Columns.


(** * Further properties of the enumerator: how many tuples *)

Local Open Scope nat_scope.

Lemma multichoose_succ (n r : nat) :
  multichoose n (S r) = multichoose_from r n.
Proof.
  simpl. induction n as [|n IH]; simpl; [reflexivity | now rewrite IH].
Qed.

Lemma multichoose_rec (n r : nat) :
  multichoose (S n) (S r) = multichoose (S n) r + multichoose n (S r).
Proof. rewrite !multichoose_succ. reflexivity. Qed.

Lemma multichoose_zero (r : nat) : multichoose 0 (S r) = 0.
Proof. reflexivity. Qed.

Lemma multichoose_one (r : nat) : multichoose 1 r = 1.
Proof.
  induction r as [|r IH]; [reflexivity|].
  rewrite multichoose_rec, IH, multichoose_zero. reflexivity.
Qed.

Lemma multichoose_two (r : nat) : multichoose 2 r = S r.
Proof.
  induction r as [|r IH]; [reflexivity|].
  rewrite multichoose_rec, IH, multichoose_one. lia.
Qed.

(** The closed form: [multichoose (n + 1) r] is the binomial coefficient
    of [n + r] over [r]. *)
Lemma multichoose_fact (n : nat) : forall r,
  multichoose (S n) r * fact r * fact n = fact (n + r).
Proof.
  induction n as [|n IHn]; intros r.
  - rewrite multichoose_one. simpl. lia.
  - induction r as [|r IHr].
    + simpl multichoose. rewrite Nat.add_0_r. simpl fact at 1. lia.
    + rewrite multichoose_rec.
      specialize (IHn (S r)).
      replace (S n + S r)%nat with (S (S n + r)) by lia.
      replace (n + S r)%nat with (S n + r)%nat in IHn by lia.
      change (fact (S (S n + r))) with (S (S n + r) * fact (S n + r))%nat.
      set (F := fact (S n + r)) in *.
      set (a := multichoose (S (S n)) r) in *.
      set (b := multichoose (S n) (S r)) in *.
      change (fact (S r)) with (S r * fact r)%nat in *.
      change (fact (S n)) with (S n * fact n)%nat in *.
      set (fr := fact r) in *. set (fn := fact n) in *.
      assert (a * (S r * fr) * (S n * fn) = S r * F)%nat as H1
        by (rewrite <- IHr; ring).
      assert (b * (S r * fr) * (S n * fn) = S n * F)%nat as H2
        by (rewrite <- IHn; ring).
      rewrite Nat.mul_add_distr_r, Nat.mul_add_distr_r, H1, H2. ring.
Qed.

Lemma multichoose_col1 (n : nat) : multichoose n 1 = n.
Proof.
  rewrite multichoose_succ. induction n as [|n IH]; [reflexivity|].
  cbn [multichoose_from]. rewrite IH. destruct n; reflexivity.
Qed.

(** What a duplicate-free union has: the second list, and of the first what
    is not in the second. *)
Lemma nodup_app_length (A : Type)
  (eq_dec : forall x y : A, {x = y} + {x <> y}) (a b : list A) :
  NoDup a -> NoDup b ->
  (length (nodup eq_dec (a ++ b)) +
   length (filter (fun x => if in_dec eq_dec x b then true else false) a)
   = length a + length b)%nat.
Proof.
  intros Ha Hb. induction Ha as [|x a Hx Ha IH]; simpl.
  - rewrite nodup_fixed_point by assumption. lia.
  - destruct (in_dec eq_dec x (a ++ b)) as [Hin|Hnotin];
      destruct (in_dec eq_dec x b) as [Hinb|Hnotinb]; simpl.
    + lia.
    + exfalso. apply in_app_or in Hin. tauto.
    + exfalso. apply Hnotin. apply in_or_app. now right.
    + lia.
Qed.

Section Counting.

Variable A : Type.
Variable eq_dec : forall x y : A, {x = y} + {x <> y}.

Lemma cwr_count (r : nat) : forall pool : list A,
  length (combinations_with_replacement pool r) = multichoose (length pool) r.
Proof.
  induction r as [|r IH]; intros pool; [reflexivity|].
  rewrite cwr_succ, multichoose_succ.
  induction pool as [|x rest IHp]; [reflexivity|].
  cbn [cwr_from multichoose_from length].
  rewrite length_app, length_map, IH, IHp. reflexivity.
Qed.

Lemma cwr_from_head (r : nat) (p : list A) (t : list A) :
  In t (cwr_from r p) -> exists x t', t = x :: t' /\ In x p.
Proof.
  induction p as [|y rest IH]; simpl; [contradiction|].
  intros Hin. apply in_app_or in Hin. destruct Hin as [Hin|Hin].
  - apply in_map_iff in Hin. destruct Hin as (t' & <- & _).
    exists y, t'. auto.
  - destruct (IH Hin) as (x & t' & -> & Hx). exists x, t'. auto.
Qed.

Lemma cwr_NoDup (r : nat) : forall pool : list A,
  NoDup pool -> NoDup (combinations_with_replacement pool r).
Proof.
  induction r as [|r IH]; intros pool Hnd.
  - simpl. constructor; [intros []|constructor].
  - rewrite cwr_succ.
    induction pool as [|x rest IHp]; [constructor|].
    cbn [cwr_from]. inversion Hnd as [|? ? Hnotin Hnd']; subst.
    apply NoDup_app.
    + apply Finite.Injective_map_NoDup; [|now apply IH].
      intros a b Hab. now injection Hab.
    + now apply IHp.
    + intros t Ht Ht'. apply in_map_iff in Ht. destruct Ht as (t' & <- & _).
      apply cwr_from_head in Ht'. destruct Ht' as (y & t'' & Heq & Hy).
      injection Heq as -> _. contradiction.
Qed.

Lemma cwr_repeat (r : nat) : forall (pool : list A) (v : A),
  In v pool -> In (repeat v r) (combinations_with_replacement pool r).
Proof.
  induction r as [|r IH]; intros pool v Hv; [now left|].
  rewrite cwr_succ. induction pool as [|x rest IHp]; [contradiction|].
  cbn [cwr_from]. apply in_or_app. destruct (eq_dec x v) as [->|Hneq].
  - left. simpl. apply in_map. apply IH. now left.
  - right. apply IHp. destruct Hv as [Hv|Hv]; [contradiction | assumption].
Qed.

Variable R : A -> A -> Prop.
Hypothesis R_asym : forall x y, R x y -> R y x -> False.

Local Abbreviation Rle := (reflexive_closure R).

Lemma sorted_NoDup (l : list A) : StronglySorted R l -> NoDup l.
Proof.
  induction 1 as [|x l Hs IH Hall]; constructor; [|assumption].
  intros Hin. rewrite Forall_forall in Hall. specialize (Hall x Hin).
  eapply R_asym; eassumption.
Qed.

Lemma both_sorted_constant (t : list A) :
  StronglySorted Rle t -> StronglySorted (fun x y => Rle y x) t ->
  forall v, hd_error t = Some v -> t = repeat v (length t).
Proof.
  intros Hup Hdown v Hv. destruct t as [|x t]; [discriminate|].
  injection Hv as ->.
  inversion Hup as [|? ? _ Hall1]; subst.
  inversion Hdown as [|? ? _ Hall2]; subst.
  rewrite Forall_forall in Hall1, Hall2.
  simpl. f_equal. clear Hup Hdown.
  induction t as [|y t IH]; [reflexivity|].
  simpl. assert (y = v) as ->.
  { destruct (Hall1 y (or_introl eq_refl)) as [Heq|Hxy]; [now symmetry|].
    destruct (Hall2 y (or_introl eq_refl)) as [Heq|Hyx]; [assumption|].
    exfalso. eapply R_asym; eassumption. }
  f_equal. apply IH; intros z Hz; [apply Hall1 | apply Hall2]; now right.
Qed.

(** The tuples drawn both from the options and from the reversed options
    are the constant tuples. *)
Lemma both_ways_common (options : list A) (n : nat) (t : list A) :
  StronglySorted R options -> (0 < n)%nat ->
  (In t (combinations_with_replacement options n) /\
   In t (combinations_with_replacement (rev options) n)) <->
  exists v, In v options /\ t = repeat v n.
Proof.
  intros Hs Hn. split.
  - intros [Hf Hr].
    assert (StronglySorted Rle options) as Hs1.
    { eapply StronglySorted_weaken; [|exact Hs]. intros x y H. now right. }
    assert (StronglySorted (fun x y => Rle y x) (rev options)) as Hs2
      by now apply StronglySorted_rev.
    pose proof (cwr_length _ _ _ Hf) as Hlen.
    destruct (@cwr_sorted A Rle (fun x => or_introl eq_refl) n _ _ Hs1 Hf)
      as [Hup Hin].
    destruct (@cwr_sorted A (fun x y => Rle y x) (fun x => or_introl eq_refl)
                n _ _ Hs2 Hr) as [Hdown _].
    destruct t as [|v t]; [simpl in Hlen; lia|].
    exists v. split; [now inversion Hin|].
    rewrite <- Hlen. now apply both_sorted_constant.
  - intros (v & Hv & ->). split; apply cwr_repeat; [assumption|].
    now apply in_rev in Hv.
Qed.

Lemma combos_both_ways_count (options : list A) (n : nat) :
  StronglySorted R options ->
  length (combos_both_ways eq_dec options n)
  = both_ways_count (length options) n.
Proof.
  intros Hs. pose proof (sorted_NoDup Hs) as Hnd.
  unfold combos_both_ways, list_set.
  destruct n as [|[|n]]; [reflexivity | |].
  - cbn [Nat.eqb both_ways_count]. rewrite cwr_count. apply multichoose_col1.
  - cbn [Nat.eqb both_ways_count]. set (m := S (S n)).
    set (fwd := combinations_with_replacement options m).
    set (bwd := combinations_with_replacement (rev options) m).
    pose proof (@nodup_app_length (list A) (list_eq_dec eq_dec) fwd bwd
                  (cwr_NoDup m Hnd) (cwr_NoDup m (NoDup_rev Hnd))) as Hlen.
    assert (length fwd = multichoose (length options) m) as Hf
      by apply cwr_count.
    assert (length bwd = multichoose (length options) m) as Hb
      by (unfold bwd; now rewrite cwr_count, length_rev).
    assert (length (filter (fun x => if in_dec (list_eq_dec eq_dec) x bwd
                                     then true else false) fwd)
            = length options) as Hcommon.
    { rewrite <- (length_map (fun v => repeat v m) options).
      apply Permutation_length. apply NoDup_Permutation.
      - apply NoDup_filter. now apply cwr_NoDup.
      - apply Finite.Injective_map_NoDup; [|assumption].
        intros x y Hxy. unfold m in Hxy. simpl in Hxy. now injection Hxy.
      - intros t. rewrite filter_In, in_map_iff.
        assert ((if in_dec (list_eq_dec eq_dec) t bwd then true else false)
                = true <-> In t bwd) as ->
          by (destruct (in_dec (list_eq_dec eq_dec) t bwd);
              split; auto; discriminate).
        unfold fwd, bwd. rewrite (@both_ways_common options m t Hs) by (unfold m; lia).
        split.
        + intros (v & Hv & ->). now exists v.
        + intros (v & <- & Hv). now exists v. }
    lia.
Qed.

End Counting.

Lemma both_ways_count_two (m : nat) :
  2 <= m -> both_ways_count 2 m = 2 * m.
Proof.
  intros Hm. destruct m as [|[|m]]; try lia.
  unfold both_ways_count. rewrite multichoose_two. lia.
Qed.

Lemma before_asym (a b : string) :
  a <> b -> forall x y, before a b x y -> before a b y x -> False.
Proof. intros Hab x y [-> ->] [H _]. congruence. Qed.

Lemma cistrans_combos_count (flag : bool) (m : nat) :
  length (cistrans_combos flag m)
  = if flag then both_ways_count 2 m else 1.
Proof.
  unfold cistrans_combos. destruct flag; [|reflexivity].
  apply (@combos_both_ways_count string string_dec (before "E" "Z")
           (@before_asym "E" "Z" ltac:(discriminate)) cistrans_options m).
  repeat constructor.
Qed.

Lemma chiral_combos_count (k : nat) :
  length (chiral_combos k) = both_ways_count 2 k.
Proof.
  unfold chiral_combos. destruct k as [|k]; [reflexivity|]. simpl negb.
  cbv iota.
  apply (@combos_both_ways_count string string_dec (before "R" "S")
           (@before_asym "R" "S" ltac:(discriminate)) chiral_options (S k)).
  repeat constructor.
Qed.

Lemma grid_length (delta : Z) (grid : list Z) :
  (0 < delta)%Z -> np_arange 0 360 delta = Some grid ->
  length grid = Z.to_nat (ceil_div 360 delta) /\ 1 <= length grid.
Proof.
  intros Hd Hg. rewrite np_arange_grid in Hg by assumption.
  injection Hg as <-. rewrite length_map, length_seq. split; [reflexivity|].
  assert (0 < ceil_div 360 delta)%Z by (apply ceil_div_spec; lia). lia.
Qed.

(** X1.  The number of combinations, in closed form.  For a positive step
    the grid has [g = ceil(360 / delta)] angles, and [find_all_combos]
    returns [N(g, n) * N(2, m) * N(2, k)] combinations for [n] torsions, [m]
    cis/trans bonds (enumeration enabled; one tuple when disabled) and [k]
    chiral centers, where [N(g, 0) = 1], [N(g, 1) = g] and, from two
    descriptors on, [N(g, n)] is twice the number of multisets of size [n]
    over [g] kinds less the [g] constant tuples; so [N(2, m) = 2 m] for
    [m >= 2].  The number of multisets over [g + 1] kinds is the binomial
    coefficient of [g + n] over [n]. *)
Theorem number_of_combinations
  (Positions Calculator : Type) (B : Backend Positions Calculator)
  (c : Conformer Positions Calculator) (delta : Z)
  (cistrans_flag chiral_flag : bool) :
  (0 < delta)%Z ->
  let g := Z.to_nat (ceil_div 360 delta) in
  let n := length (snd (find_terminal_torsions B c)) in
  let m := length (cistrans c) in
  let k := length (chiral_centers c) in
  (exists combos,
      find_all_combos B c delta cistrans_flag chiral_flag = Some combos /\
      length combos =
      both_ways_count g n *
      (if cistrans_flag then both_ways_count 2 m else 1) *
      both_ways_count 2 k) /\
  1 <= g /\
  (forall j, 2 <= j -> both_ways_count 2 j = 2 * j) /\
  (forall j r, multichoose (S j) r * fact r * fact j = fact (j + r)).
Proof.
  intros Hd g n m k. split; [|split; [|split]].
  - unfold find_all_combos. subst n.
    destruct (find_terminal_torsions B c) as [terminal tors]. simpl.
    destruct (np_arange 0 360 delta) as [grid|] eqn:Hg.
    2:{ rewrite np_arange_grid in Hg by assumption. discriminate. }
    destruct (grid_length Hd Hg) as [Hlen _].
    eexists. split; [reflexivity|].
    etransitivity; [apply product3_length|].
    rewrite cistrans_combos_count, chiral_combos_count.
    unfold torsion_combos.
    rewrite (@combos_both_ways_count Z Z.eq_dec Z.lt
               (fun x y H1 H2 => Z.lt_asymm x y H1 H2) grid (length tors)
               (grid_sorted Hd Hg)).
    now rewrite Hlen.
  - subst g. assert (0 < ceil_div 360 delta)%Z by (apply ceil_div_spec; lia).
    lia.
  - intros j. apply both_ways_count_two.
  - intros j r. apply multichoose_fact.
Qed.

Lemma number_of_combinations_witness :
  exists combos,
    find_all_combos chain_backend (chain 60 2 3 1) 120 true true
      = Some combos /\
    length combos = 9 * 6 * 2.
Proof.
  destruct (@number_of_combinations Z unit chain_backend (chain 60 2 3 1)
              120%Z true true ltac:(lia)) as [(combos & Hc & Hlen) _].
  exists combos. split; [exact Hc | exact Hlen].
Defined.

(** * Further properties of the enumerator: which label tuples *)

Lemma all_equal_repeat (A : Type) (b : A) (t : list A) :
  Forall (eq b) t -> t = repeat b (length t).
Proof.
  induction 1 as [|x t Hx _ IH]; [reflexivity|]. simpl. now rewrite <- Hx, <- IH.
Qed.

Lemma sorted_labels_shape (a b : string) (t : list string) :
  a <> b ->
  StronglySorted (fun x y => x = y \/ before a b x y) t ->
  Forall (fun x => In x [a; b]) t ->
  a_then_b a b t.
Proof.
  intros Hab Hs. induction Hs as [|x t Hs IH Hall]; intros Hin.
  - exists 0, 0. reflexivity.
  - inversion Hin as [|? ? Hx Hin']; subst.
    destruct Hx as [<-|[<-|[]]].
    + destruct (IH Hin') as (i & j & ->). exists (S i), j. reflexivity.
    + exists 0, (S (length t)). simpl. f_equal. apply all_equal_repeat.
      rewrite Forall_forall in *. intros y Hy.
      destruct (Hall y Hy) as [Heq|[Heq _]]; [assumption | congruence].
Qed.

Lemma pair_sorted (a b : string) :
  StronglySorted (fun x y => x = y \/ before a b x y) [a; b].
Proof.
  apply SSorted_cons.
  - apply SSorted_cons; [apply SSorted_nil | apply Forall_nil].
  - apply Forall_cons; [right; now split | apply Forall_nil].
Qed.

Lemma label_combos_shape (a b : string) (n : nat) (t : list string) :
  a <> b ->
  In t (combos_both_ways string_dec [a; b] n) ->
  a_then_b a b t \/ (n <> 1 /\ a_then_b b a t).
Proof.
  intros Hab Ht. apply combos_both_ways_in in Ht.
  destruct Ht as [Ht|[Hn Ht]].
  - left. apply sorted_labels_shape; [assumption| |].
    + eapply (cwr_sorted (R := fun x y => x = y \/ before a b x y));
        [auto | apply pair_sorted | exact Ht].
    + eapply (cwr_sorted (R := fun x y => x = y \/ before a b x y));
        [auto | apply pair_sorted | exact Ht].
  - right. split; [assumption|]. simpl in Ht.
    apply sorted_labels_shape; [congruence| |].
    + eapply (cwr_sorted (R := fun x y => x = y \/ before b a x y));
        [auto | apply pair_sorted | exact Ht].
    + eapply (cwr_sorted (R := fun x y => x = y \/ before b a x y));
        [auto | apply pair_sorted | exact Ht].
Qed.

Lemma alternating_not_a_then_b (a b : string) (pre post : list string) :
  a <> b -> ~ a_then_b a b (pre ++ b :: a :: post).
Proof.
  intros Hab (i & j & Heq).
  assert (forall i j l1 l2, l1 ++ b :: a :: l2 = repeat a i ++ repeat b j ->
                            False) as H; [|eapply H; exact Heq].
  clear - Hab. intros i j l1. revert i j.
  induction l1 as [|x l1 IH]; intros i j l2 Heq.
  - destruct i as [|i]; simpl in Heq.
    + destruct j as [|[|j]]; simpl in Heq; try discriminate.
      injection Heq as Heq _. congruence.
    + injection Heq as Heq _. congruence.
  - destruct i as [|i]; simpl in Heq.
    + destruct j as [|j]; simpl in Heq; [discriminate|].
      injection Heq as _ Heq. apply (IH 0 j l2). exact Heq.
    + injection Heq as _ Heq. apply (IH i j l2). exact Heq.
Qed.

(** X2.  The label tuples are monotone, as the angle tuples are: every
    cis/trans tuple that [find_all_combos] emits is a run of E followed by
    a run of Z, or (never with exactly one bond) a run of Z followed by a run
    of E, and every chirality tuple is a run of R followed by a run of S or
    the reverse.  An assignment that changes label twice, such as (E, Z, E)
    or (R, S, R), is never emitted, so with three descriptors or more some
    assignments are not searched. *)
Theorem emitted_label_tuples_monotone
  (Positions Calculator : Type) (B : Backend Positions Calculator)
  (c : Conformer Positions Calculator) (delta : Z)
  (cistrans_flag chiral_flag : bool) (combos : list Combo)
  (t : list Z) (s x : list string) :
  find_all_combos B c delta cistrans_flag chiral_flag = Some combos ->
  In (t, s, x) combos ->
  (a_then_b "E" "Z" s \/ (length (cistrans c) <> 1 /\ a_then_b "Z" "E" s)) /\
  (a_then_b "R" "S" x \/
   (length (chiral_centers c) <> 1 /\ a_then_b "S" "R" x)) /\
  s <> ["E"; "Z"; "E"]%string /\ s <> ["Z"; "E"; "Z"]%string /\
  x <> ["R"; "S"; "R"]%string /\ x <> ["S"; "R"; "S"]%string.
Proof.
  intros Hc Hin. unfold find_all_combos in Hc.
  destruct (find_terminal_torsions B c) as [terminal tors].
  destruct (np_arange 0 360 delta) as [grid|]; [|discriminate].
  injection Hc as <-. apply product3_in in Hin. destruct Hin as (_ & Hs & Hx).
  assert (a_then_b "E" "Z" s \/
          (length (cistrans c) <> 1 /\ a_then_b "Z" "E" s)) as Hshape_s.
  { unfold cistrans_combos in Hs. destruct cistrans_flag.
    - apply label_combos_shape; [discriminate | exact Hs].
    - destruct Hs as [<-|[]]. left. exists 0, 0. reflexivity. }
  assert (a_then_b "R" "S" x \/
          (length (chiral_centers c) <> 1 /\ a_then_b "S" "R" x)) as Hshape_x.
  { unfold chiral_combos in Hx.
    destruct (negb (length (chiral_centers c) =? 0)).
    - apply label_combos_shape; [discriminate | exact Hx].
    - destruct Hx as [<-|[]]. left. exists 0, 0. reflexivity. }
  split; [exact Hshape_s|]. split; [exact Hshape_x|].
  repeat split; intros ->.
  - destruct Hshape_s as [H|[_ H]].
    + apply (@alternating_not_a_then_b "E" "Z" ["E"%string] []) in H;
        [assumption | discriminate].
    + apply (@alternating_not_a_then_b "Z" "E" [] ["E"%string]) in H;
        [assumption | discriminate].
  - destruct Hshape_s as [H|[_ H]].
    + apply (@alternating_not_a_then_b "E" "Z" [] ["Z"%string]) in H;
        [assumption | discriminate].
    + apply (@alternating_not_a_then_b "Z" "E" ["Z"%string] []) in H;
        [assumption | discriminate].
  - destruct Hshape_x as [H|[_ H]].
    + apply (@alternating_not_a_then_b "R" "S" ["R"%string] []) in H;
        [assumption | discriminate].
    + apply (@alternating_not_a_then_b "S" "R" [] ["R"%string]) in H;
        [assumption | discriminate].
  - destruct Hshape_x as [H|[_ H]].
    + apply (@alternating_not_a_then_b "R" "S" [] ["S"%string]) in H;
        [assumption | discriminate].
    + apply (@alternating_not_a_then_b "S" "R" ["S"%string] []) in H;
        [assumption | discriminate].
Qed.

Lemma emitted_label_tuples_monotone_witness :
  a_then_b "E" "Z" ["Z"; "Z"; "E"]%string \/
  (length (cistrans (chain 60 0 3 0)) <> 1 /\
   a_then_b "Z" "E" ["Z"; "Z"; "E"]%string).
Proof.
  refine (proj1 (@emitted_label_tuples_monotone Z unit chain_backend
                   (chain 60 0 3 0) 120%Z true true _ []
                   ["Z"; "Z"; "E"]%string [] _ _));
    [vm_compute; reflexivity | simpl; auto 12].
Defined.

(** * Further properties of the search: when it does nothing *)



(** Combinations whose components all have the lengths [n], [m] and [k]. *)
Lemma np_any_uniform
  (Positions Calculator : Type) (B : Backend Positions Calculator)
  (combos : list Combo) (n m k : nat) :
  combos <> [] ->
  Forall (fun combo => component_lengths combo = [n; m; k]) combos ->
  np_any B combos =
  if (m =? n) && (k =? n)
  then if n =? 0 then Some false else None
  else if ragged_arrays B then Some true else None.
Proof.
  intros Hne Hall. destruct combos as [|c0 rest]; [congruence|].
  inversion Hall as [|? ? H0 Hrest]; subst.
  unfold np_any. cbn [map concat]. rewrite H0. cbn [app forallb].
  rewrite (Nat.eqb_sym n m), (Nat.eqb_sym n k).
  destruct (Nat.eqb_spec m n) as [->|Hm]; [|reflexivity].
  destruct (Nat.eqb_spec k n) as [->|Hk]; [|reflexivity].
  assert (forallb (Nat.eqb n) (concat (map component_lengths rest)) = true)
    as ->; [|reflexivity].
  clear H0 Hall Hne. induction Hrest as [|c1 rest H1 _ IH]; [reflexivity|].
  cbn [map concat]. rewrite H1, forallb_app, IH. simpl.
  now rewrite Nat.eqb_refl.
Qed.

(** For a positive step there is at least one combination, and the
    components of every combination are as long as the descriptor lists
    they are drawn for. *)
Lemma find_all_combos_shape
  (Positions Calculator : Type) (B : Backend Positions Calculator)
  (c : Conformer Positions Calculator) (delta : Z)
  (cistrans_flag chiral_flag : bool) (combos : list Combo) :
  (0 < delta)%Z ->
  find_all_combos B c delta cistrans_flag chiral_flag = Some combos ->
  combos <> [] /\
  Forall (fun combo => component_lengths combo =
            [length (snd (find_terminal_torsions B c));
             if cistrans_flag then length (cistrans c) else 0;
             length (chiral_centers c)]) combos.
Proof.
  intros Hd Hc. unfold find_all_combos in Hc.
  destruct (find_terminal_torsions B c) as [terminal tors]. simpl.
  destruct (np_arange 0 360 delta) as [grid|] eqn:Hg; [|discriminate].
  injection Hc as <-.
  destruct (grid_length Hd Hg) as [_ Hlen].
  split.
  - intros Hnil. apply (f_equal (@length _)) in Hnil.
    unfold Combo in Hnil. rewrite product3_length in Hnil. simpl in Hnil.
    assert (torsion_combos grid (length tors) <> []) as Ht.
    { unfold torsion_combos. apply combos_both_ways_nonempty.
      intros ->. simpl in Hlen. lia. }
    assert (cistrans_combos cistrans_flag (length (cistrans c)) <> []) as Hs.
    { unfold cistrans_combos. destruct cistrans_flag; [|discriminate].
      apply combos_both_ways_nonempty. discriminate. }
    assert (chiral_combos (length (chiral_centers c)) <> []) as Hx.
    { unfold chiral_combos.
      destruct (negb (length (chiral_centers c) =? 0)); [|discriminate].
      apply combos_both_ways_nonempty. discriminate. }
    destruct (torsion_combos grid (length tors)); [congruence|].
    destruct (cistrans_combos cistrans_flag (length (cistrans c)));
      [congruence|].
    destruct (chiral_combos (length (chiral_centers c))); [congruence|].
    simpl in Hnil. lia.
  - apply Forall_forall. intros [[t s] x] Hin.
    apply product3_in in Hin. destruct Hin as (Ht & Hs & Hx).
    apply combos_both_ways_length in Ht.
    apply chiral_combos_length in Hx.
    apply cistrans_combos_length in Hs. destruct Hs as [Hs1 Hs2].
    simpl. rewrite Ht, Hx. f_equal. f_equal.
    destruct cistrans_flag; [now apply Hs1 | now rewrite Hs2].
Qed.





(** X4.  The step at and below zero.  A zero step makes [np.arange] raise,
    and the search with it, whatever the structure.  A negative step gives
    an empty grid: with at least one torsion to enumerate there is no
    combination at all, and the search returns the input structure, nothing
    relaxed and nothing changed. *)
Theorem search_with_nonpositive_step
  (Positions Calculator : Type) (B : Backend Positions Calculator)
  (completion : list nat) (conformer : loc) (delta : Z)
  (cistrans_flag chiral_flag : bool)
  (st : Store Positions Calculator) (c : Conformer Positions Calculator) :
  nth_error st conformer = Some c ->
  (delta = 0%Z ->
   find_all_combos B c delta cistrans_flag chiral_flag = None /\
   systematic_search B completion conformer delta cistrans_flag chiral_flag st
   = None) /\
  ((delta < 0)%Z -> 1 <= length (snd (find_terminal_torsions B c)) ->
   find_all_combos B c delta cistrans_flag chiral_flag = Some [] /\
   systematic_search B completion conformer delta cistrans_flag chiral_flag st
   = Some ([conformer], st)).
Proof.
  intros Hc. split.
  - intros ->.
    assert (find_all_combos B c 0 cistrans_flag chiral_flag = None) as H.
    { unfold find_all_combos. now destruct (find_terminal_torsions B c). }
    split; [assumption|].
    unfold systematic_search, bind, read, lift. now rewrite Hc, H.
  - intros Hd Hn.
    assert (find_all_combos B c delta cistrans_flag chiral_flag = Some [])
      as H.
    { unfold find_all_combos, np_arange.
      destruct (find_terminal_torsions B c) as [terminal tors]. simpl in Hn.
      destruct (Z.eqb_spec delta 0) as [|_]; [lia|].
      assert (Z.to_nat (ceil_div (360 - 0) delta) = 0) as ->.
      { unfold ceil_div.
        assert (0 <= - (360 - 0) / delta)%Z; [|lia].
        pose proof (Z.div_mod (- (360 - 0)) delta ltac:(lia)) as Hdm.
        pose proof (Z.mod_neg_bound (- (360 - 0)) delta Hd) as Hm.
        nia. }
      simpl seq. simpl map. f_equal.
      assert (torsion_combos [] (length tors) = []) as ->; [|reflexivity].
      unfold torsion_combos, combos_both_ways, list_set.
      destruct tors as [|t0 [|t1 tors]]; [simpl in Hn; lia | reflexivity |].
      reflexivity. }
    split; [assumption|].
    unfold systematic_search, bind, read, lift. now rewrite Hc, H.
Qed.

Lemma search_with_nonpositive_step_witness :
  find_all_combos chain_backend (chain 60 1 0 0) (-30) true true = Some [] /\
  systematic_search chain_backend [0; 1]%nat 0%nat (-30) true true
    [chain 60 1 0 0] = Some ([0%nat], [chain 60 1 0 0]).
Proof.
  apply (proj2 (@search_with_nonpositive_step Z unit chain_backend
                  [0; 1]%nat 0%nat (-30)%Z true true [chain 60 1 0 0]
                  (chain 60 1 0 0) eq_refl)); simpl; lia.
Defined.

(** ** What the shared dictionary holds *)

Lemma dict_set_in (A : Type) (k : nat) (v : A) (d : list (nat * A)) :
  forall k' v', In (k', v') (dict_set k v d) ->
                (k' = k /\ v' = v) \/ In (k', v') d.
Proof.
  induction d as [|[k0 v0] d IH]; intros k' v' Hin; simpl in Hin.
  - destruct Hin as [Heq|[]]. injection Heq as <- <-. now left.
  - destruct (Nat.eqb_spec k0 k) as [->|Hneq].
    + destruct Hin as [Heq|Hin]; [injection Heq as <- <-; now left|].
      right. now right.
    + destruct Hin as [Heq|Hin]; [right; now left|].
      destruct (IH _ _ Hin) as [H|H]; [now left | right; now right].
Qed.

Lemma dict_set_keys (A : Type) (k : nat) (v : A) (d : list (nat * A)) :
  forall x, In x (map fst (dict_set k v d)) <-> x = k \/ In x (map fst d).
Proof.
  induction d as [|[k0 v0] d IH]; intros x; simpl.
  - intuition.
  - destruct (Nat.eqb_spec k0 k) as [->|Hneq]; simpl.
    + intuition.
    + rewrite IH. intuition.
Qed.

Lemma dict_set_NoDup (A : Type) (k : nat) (v : A) (d : list (nat * A)) :
  NoDup (map fst d) -> NoDup (map fst (dict_set k v d)).
Proof.
  induction d as [|[k0 v0] d IH]; intros Hnd; simpl.
  - constructor; [intros []|constructor].
  - simpl in Hnd. inversion Hnd as [|? ? Hnotin Hnd']; subst.
    destruct (Nat.eqb_spec k0 k) as [->|Hneq]; simpl.
    + now constructor.
    + constructor; [|now apply IH].
      rewrite dict_set_keys. intros [H|H]; [congruence | contradiction].
Qed.

Lemma dict_get_key (A : Type) (k : nat) (d : list (nat * A)) (v : A) :
  dict_get k d = Some v -> In k (map fst d).
Proof.
  induction d as [|[k0 v0] d IH]; simpl; [discriminate|].
  destruct (Nat.eqb_spec k0 k) as [->|Hneq]; [now left|].
  intros H. right. now apply IH.
Qed.


Section RelaxerFacts.

Variables Positions Calculator : Type.
Variable B : Backend Positions Calculator.
Variable st : Store Positions Calculator.
Variable conformers : list (nat * loc).
Variable calc : option Calculator.

(** Every entry of [return_dict] was written by a unit that completed, under
    its own index and with the result of its own candidate; no index is
    there twice. *)
Lemma run_processes_entries (completion : list nat) :
  NoDup (map fst (run_processes B st conformers calc completion)) /\
  forall i r, In (i, r) (run_processes B st conformers calc completion) ->
              In i completion /\ unit_result B st conformers calc i = Some r.
Proof.
  unfold run_processes.
  assert (forall d : list (nat * Result Positions),
            NoDup (map fst d) ->
            NoDup (map fst (fold_left
                     (fun d i => unit_writes B st conformers calc i d)
                     completion d)) /\
            forall i r,
              In (i, r) (fold_left
                     (fun d i => unit_writes B st conformers calc i d)
                     completion d) ->
              In (i, r) d \/
              (In i completion /\ unit_result B st conformers calc i = Some r))
    as H.
  { induction completion as [|j rest IH]; intros d Hnd; simpl.
    - split; [assumption | intros i r Hin; now left].
    - assert (NoDup (map fst (unit_writes B st conformers calc j d))) as Hnd'.
      { unfold unit_writes.
        destruct (unit_result B st conformers calc j); [|assumption].
        now apply dict_set_NoDup. }
      destruct (IH _ Hnd') as [Hkeys Hentries]. split; [assumption|].
      intros i r Hin. destruct (Hentries i r Hin) as [Hd|[Hi Hr]].
      + unfold unit_writes in Hd.
        destruct (unit_result B st conformers calc j) as [rj|] eqn:Ej;
          [|now left].
        apply dict_set_in in Hd. destruct Hd as [[-> ->]|Hd]; [|now left].
        right. split; [now left | assumption].
      + right. split; [now right | assumption]. }
  destruct (H [] (NoDup_nil _)) as [Hkeys Hentries].
  split; [assumption|].
  intros i r Hin. destruct (Hentries i r Hin) as [[]|Hir]. exact Hir.
Qed.

Lemma unit_result_key (i : nat) (r : Result Positions) :
  unit_result B st conformers calc i = Some r -> In i (map fst conformers).
Proof.
  unfold unit_result. destruct (dict_get i conformers) as [l|] eqn:E;
    [|discriminate].
  intros _. eapply dict_get_key; eassumption.
Qed.

End RelaxerFacts.


Lemma DataFrame_length (Positions : Type) (results : list (Result Positions)) :
  forall i, length (DataFrame i results) = length results.
Proof.
  induction results as [|r l IH]; intros i; simpl; [reflexivity|].
  now rewrite IH.
Qed.

(** ** Reading the shared dictionary *)





Section RelaxerOrder.

Variables Positions Calculator : Type.
Variable B : Backend Positions Calculator.
Variable st : Store Positions Calculator.
Variable conformers : list (nat * loc).
Variable calc : option Calculator.



End RelaxerOrder.


(** * The order in which the relaxation units finish *)



(** * The search on the path that relaxes candidates *)

Section RelaxingPath.

Variables Positions Calculator : Type.
Variable B : Backend Positions Calculator.



End RelaxingPath.


(** * Further properties of the deduplicator *)



(** X6.  With a positive window the frame that is retained and sorted is
    not empty when there is a result at all: its first row has the minimum
    energy, and the energy of every row is at least the minimum and below
    the minimum plus the window. *)
Theorem retained_frame_starts_at_the_minimum (Positions : Type) (w : Q)
  (df : list (Row Positions)) (m : Q) :
  (0 < w)%Q ->
  energy_min df = Some m ->
  exists r rest,
    sort_values (energy_window w df) = r :: rest /\ (df_energy r == m)%Q /\
    Forall (fun r' => (m <= df_energy r')%Q /\ (df_energy r' < m + w)%Q)
      (r :: rest).
Proof.
  intros Hw Hm.
  pose proof (energy_min_spec df Hm) as [Hlow (r0 & Hr0 & He0)].
  rewrite Forall_forall in Hlow.
  assert (forall x, In x (sort_values (energy_window w df)) <->
                    In x df /\ (df_energy x < m + w)%Q) as HS.
  { intros x. split.
    - intros Hx. apply (Permutation_in _ (sort_values_perm _)) in Hx.
      apply energy_window_in in Hx. destruct Hx as [Hx (m' & Hm' & Hlt)].
      rewrite Hm in Hm'. injection Hm' as <-. now split.
    - intros [Hx Hlt].
      apply (Permutation_in _ (Permutation_sym (sort_values_perm _))).
      apply energy_window_in. split; [assumption|]. now exists m. }
  pose proof (sort_values_sorted (energy_window w df)) as Hsorted.
  destruct (sort_values (energy_window w df)) as [|s0 S'] eqn:ES.
  { exfalso. apply (proj2 (HS r0)). split; [assumption|]. rewrite He0. lra. }
  exists s0, S'. split; [reflexivity|]. split.
  - apply Qle_antisym.
    + apply StronglySorted_inv in Hsorted. destruct Hsorted as [_ Hall].
      assert (In r0 (s0 :: S')) as Hin
        by (apply HS; split; [assumption | rewrite He0; lra]).
      destruct Hin as [<-|Hin]; [rewrite He0; apply Qle_refl|].
      rewrite Forall_forall in Hall. rewrite <- He0. now apply Hall.
    + apply Hlow. apply HS. now left.
  - rewrite Forall_forall. intros x Hx.
    apply HS in Hx. destruct Hx as [Hx Hlt].
    split; [now apply Hlow | assumption].
Qed.

Lemma retained_frame_starts_at_the_minimum_witness :
  exists r rest,
    sort_values (energy_window 1
                   [energy_row 0 (2 # 10); energy_row 1 0; energy_row 2 2])
    = r :: rest /\ (df_energy r == 0)%Q /\
    Forall (fun r' => (0 <= df_energy r')%Q /\ (df_energy r' < 0 + 1)%Q)
      (r :: rest).
Proof.
  apply (@retained_frame_starts_at_the_minimum unit 1%Q
           [energy_row 0 (2 # 10); energy_row 1 0; energy_row 2 2] 0%Q);
    reflexivity.
Defined.

(** * Further properties of the search: the path that relaxes candidates *)



(** X8.  The test of line 134 on a structure with [n] torsions to
    enumerate, [m] cis/trans bonds that are enumerated and [k] chiral
    centers, for a positive step.  The search raises there when the three
    numbers are equal and positive: the combinations make a regular array of
    strings.  It raises there as well, whenever the numbers are not all
    zero, where numpy refuses ragged input.  Candidates are built and
    relaxed only when the numbers are not all equal and numpy accepts ragged
    input. *)
Theorem search_raises_on_the_test_of_the_combinations
  (Positions Calculator : Type) (B : Backend Positions Calculator)
  (completion : list nat) (conformer : loc) (delta : Z)
  (cistrans_flag chiral_flag : bool)
  (st : Store Positions Calculator) (c : Conformer Positions Calculator) :
  nth_error st conformer = Some c ->
  (0 < delta)%Z ->
  let n := length (snd (find_terminal_torsions B c)) in
  let m := if cistrans_flag then length (cistrans c) else 0 in
  let k := length (chiral_centers c) in
  (n = m -> m = k -> 0 < n ->
   systematic_search B completion conformer delta cistrans_flag chiral_flag st
   = None) /\
  (ragged_arrays B = false -> ~ (n = 0 /\ m = 0 /\ k = 0) ->
   systematic_search B completion conformer delta cistrans_flag chiral_flag st
   = None) /\
  (forall combos,
     find_all_combos B c delta cistrans_flag chiral_flag = Some combos ->
     np_any B combos = Some true <->
     ragged_arrays B = true /\ ~ (n = m /\ m = k)).
Proof.
  intros Hc Hd n m k.
  destruct (find_all_combos B c delta cistrans_flag chiral_flag)
    as [combos|] eqn:Hcombos.
  2:{ unfold find_all_combos in Hcombos.
      destruct (find_terminal_torsions B c).
      rewrite np_arange_grid in Hcombos by assumption. discriminate. }
  destruct (find_all_combos_shape B c cistrans_flag chiral_flag Hd Hcombos)
    as [Hne Hall].
  pose proof (np_any_uniform B Hne Hall) as Hany.
  fold n m k in Hany.
  assert (np_any B combos = None ->
          systematic_search B completion conformer delta cistrans_flag
            chiral_flag st = None) as Hraise.
  { intros H. unfold systematic_search, bind, read, lift.
    now rewrite Hc, Hcombos, H. }
  split; [|split].
  - intros Hnm Hmk Hn. apply Hraise. rewrite Hany.
    destruct (Nat.eqb_spec m n) as [_|H]; [|lia].
    destruct (Nat.eqb_spec k n) as [_|H]; [|lia]. simpl.
    destruct (Nat.eqb_spec n 0); [lia | reflexivity].
  - intros Hr Hnz. apply Hraise. rewrite Hany, Hr.
    destruct ((m =? n) && (k =? n)) eqn:E; [|reflexivity].
    apply andb_true_iff in E. destruct E as [E1 E2].
    apply Nat.eqb_eq in E1, E2.
    destruct (Nat.eqb_spec n 0); [exfalso; apply Hnz; lia | reflexivity].
  - intros combos' [= <-]. rewrite Hany.
    destruct ((m =? n) && (k =? n)) eqn:E.
    + apply andb_true_iff in E. destruct E as [E1 E2].
      apply Nat.eqb_eq in E1, E2. split.
      * intros H. destruct (n =? 0); discriminate H.
      * intros [_ H]. exfalso. apply H. lia.
    + apply andb_false_iff in E. split.
      * intros H. destruct (ragged_arrays B); [|discriminate H].
        split; [reflexivity|]. intros [H1 H2].
        destruct E as [E|E]; apply Nat.eqb_neq in E; lia.
      * intros [-> _]. reflexivity.
Qed.

Lemma search_raises_on_the_test_of_the_combinations_witness :
  systematic_search chain_backend [0; 1] 0 180%Z true true [chain 60 1 1 1]
  = None.
Proof.
  apply (proj1 (@search_raises_on_the_test_of_the_combinations Z unit
                  chain_backend [0; 1] 0 180%Z true true [chain 60 1 1 1]
                  (chain 60 1 1 1) eq_refl ltac:(lia)));
    simpl; lia.
Defined.

(** * Further properties of the relaxer *)

(** X9.  How many results there are.  The dictionary of results never
    holds more entries than there are candidates, nor more than there are
    units that completed, also when a unit is reported more than once; every
    entry is under the index of a candidate; and the frame built from the
    results has one row per entry. *)
Theorem at_most_one_result_per_candidate
  (Positions Calculator : Type) (B : Backend Positions Calculator)
  (st : Store Positions Calculator) (conformers : list (nat * loc))
  (calc : option Calculator) (completion : list nat) :
  let return_dict := run_processes B st conformers calc completion in
  length return_dict <= length conformers /\
  length return_dict <= length completion /\
  incl (map fst return_dict) (map fst conformers) /\
  length (DataFrame 0 (map snd return_dict)) = length return_dict.
Proof.
  intros return_dict.
  destruct (run_processes_entries B st conformers calc completion)
    as [Hnd He].
  fold return_dict in Hnd, He.
  assert (forall i, In i (map fst return_dict) ->
                    In i completion /\ In i (map fst conformers)) as Hkey.
  { intros i Hi. apply in_map_iff in Hi. destruct Hi as ([i' r] & <- & Hin).
    destruct (He _ _ Hin) as [Hc Hr]. split; [assumption|].
    eapply unit_result_key; eassumption. }
  split; [|split; [|split]].
  - rewrite <- (length_map fst return_dict), <- (length_map fst conformers).
    apply NoDup_incl_length; [assumption|]. intros i Hi. now apply Hkey.
  - rewrite <- (length_map fst return_dict).
    apply NoDup_incl_length; [assumption|]. intros i Hi. now apply Hkey.
  - intros i Hi. now apply Hkey.
  - rewrite DataFrame_length. apply length_map.
Qed.

(** * Further properties of the enumerator: a step of a full turn or more *)

Lemma cwr_singleton (v : Z) (r : nat) :
  combinations_with_replacement [v] r = [repeat v r].
Proof.
  induction r as [|r IH]; [reflexivity|].
  rewrite cwr_succ. cbn [cwr_from]. rewrite IH. reflexivity.
Qed.

(** X10.  A step of 360 degrees or more leaves the single grid angle 0:
    the only torsion tuple sets every torsion to 0, and the search explores
    the cis/trans and chirality labels alone. *)
Theorem step_of_a_full_turn
  (Positions Calculator : Type) (B : Backend Positions Calculator)
  (c : Conformer Positions Calculator) (delta : Z)
  (cistrans_flag chiral_flag : bool) :
  (360 <= delta)%Z ->
  np_arange 0 360 delta = Some [0%Z] /\
  exists combos,
    find_all_combos B c delta cistrans_flag chiral_flag = Some combos /\
    (forall t s x, In (t, s, x) combos ->
       t = repeat 0%Z (length (snd (find_terminal_torsions B c)))) /\
    length combos =
      (if cistrans_flag then both_ways_count 2 (length (cistrans c)) else 1) *
      both_ways_count 2 (length (chiral_centers c)).
Proof.
  intros Hd.
  assert (np_arange 0 360 delta = Some [0%Z]) as Hg.
  { rewrite np_arange_grid by lia.
    assert (ceil_div 360 delta = 1%Z) as ->; [|reflexivity].
    assert (0 < ceil_div 360 delta)%Z by (apply ceil_div_spec; lia).
    assert (~ (1 < ceil_div 360 delta)%Z); [|lia].
    intros H1. apply ceil_div_spec in H1; lia. }
  split; [assumption|].
  unfold find_all_combos.
  destruct (find_terminal_torsions B c) as [terminal tors]. simpl.
  rewrite Hg. eexists. split; [reflexivity|].
  split.
  - intros t s x Hin. apply product3_in in Hin. destruct Hin as (Hin & _ & _).
    unfold torsion_combos in Hin. apply combos_both_ways_in in Hin.
    simpl rev in Hin. rewrite cwr_singleton in Hin.
    destruct Hin as [[<-|[]]|[_ [<-|[]]]]; reflexivity.
  - etransitivity; [apply product3_length|].
    rewrite cistrans_combos_count, chiral_combos_count.
    unfold torsion_combos.
    rewrite (@combos_both_ways_count Z Z.eq_dec Z.lt
               (fun x y H1 H2 => Z.lt_asymm x y H1 H2) [0%Z] (length tors))
      by (repeat constructor).
    assert (both_ways_count (length [0%Z]) (length tors) = 1) as ->; [|lia].
    unfold both_ways_count. destruct (length tors) as [|[|n]]; try reflexivity.
    rewrite multichoose_one. reflexivity.
Qed.

Lemma step_of_a_full_turn_witness :
  np_arange 0 360 400 = Some [0%Z].
Proof.
  apply (@step_of_a_full_turn Z unit chain_backend (chain 60 2 1 0) 400%Z
           true true).
  lia.
Defined.

